(** * KoELECTRA character tokenizer: a shallow embedding of
      [pretrain/model/tokenization.py] and the properties of its
      vocabulary store, segmenter, codec and sequence assembler.

    Python values are modelled as follows.
    - A [str] is the list of its Unicode code points ([N]).
    - An [int] is a [Z]; a value that is an [int] or [None] is an
      [option Z] (the special-token ids are such values).
    - [collections.OrderedDict] is an association list kept in insertion
      order with unique keys.
    - An exception is the [Raise] constructor of [outcome]; a method
      that has written or logged before it raises returns its effects
      beside the exception.
    - The file system is a map from paths to inodes; text files are
      opened the way the source opens them (UTF-8, universal newlines,
      POSIX path conventions). Paths are compared as strings; a regular
      file may be opened for reading and writing, for reading only, or
      not at all. *)

From Stdlib Require Import String Ascii.
From Stdlib Require Import List NArith ZArith Bool Lia.
From Stdlib Require Import Permutation Sorted.
Import ListNotations.

(* ================================================================== *)
(** * Python strings                                                    *)
(* ================================================================== *)

Module PyStr.

Definition char := N.
Definition str := list char.

Definition LF : char := 10%N.
Definition CR : char := 13%N.
Definition SPACE : char := 32%N.

(** An ASCII literal as a [str]. *)
Definition lit (s : string) : str := map N_of_ascii (list_ascii_of_string s).

Fixpoint str_eqb (a b : str) : bool :=
  match a, b with
  | [], [] => true
  | x :: a', y :: b' => N.eqb x y && str_eqb a' b'
  | _, _ => false
  end.

(** [not l]. *)
Definition is_nil {A : Type} (l : list A) : bool :=
  match l with
  | [] => true
  | _ => false
  end.

(** The code points [str.split()] and [str.strip()] treat as whitespace
    (CPython's [Py_UNICODE_ISSPACE]). *)
Definition isspace (c : char) : bool :=
  ((0x09 <=? c) && (c <=? 0x0D) || (0x1C <=? c) && (c <=? 0x20)
   || (c =? 0x85) || (c =? 0xA0) || (c =? 0x1680)
   || (0x2000 <=? c) && (c <=? 0x200A)
   || (c =? 0x2028) || (c =? 0x2029) || (c =? 0x202F) || (c =? 0x205F)
   || (c =? 0x3000))%N.

Definition in_chars (cs : str) (c : char) : bool := existsb (N.eqb c) cs.

(** The code points UTF-8 encodes and decodes: all up to U+10FFFF but the
    surrogates. *)
Definition scalar_value (c : char) : bool :=
  ((c <? 0xD800) || (0xDFFF <? c) && (c <=? 0x10FFFF))%N.

(** [lstrip]/[rstrip] over a character class. *)
Fixpoint lstrip_if (p : char -> bool) (s : str) : str :=
  match s with
  | [] => []
  | c :: r => if p c then lstrip_if p r else s
  end.

Fixpoint rstrip_if (p : char -> bool) (s : str) : str :=
  match s with
  | [] => []
  | c :: r =>
      match rstrip_if p r with
      | [] => if p c then [] else [c]
      | r' => c :: r'
      end
  end.

(** [s.strip()], [s.rstrip(chars)]. *)
Definition strip (s : str) : str := rstrip_if isspace (lstrip_if isspace s).
Definition rstrip_chars (cs : str) (s : str) : str := rstrip_if (in_chars cs) s.

(** [s.split()]: a left-to-right scan; [cur] is the word being read,
    most recent character first. *)
Definition flush (cur : str) : list str :=
  match cur with
  | [] => []
  | _ => [rev cur]
  end.

Fixpoint split_scan (cur : str) (s : str) : list str :=
  match s with
  | [] => flush cur
  | c :: r =>
      if isspace c then flush cur ++ split_scan [] r
      else split_scan (c :: cur) r
  end.

Definition split (s : str) : list str := split_scan [] s.

(** [sep.join(parts)]. *)
Fixpoint join (sep : str) (parts : list str) : str :=
  match parts with
  | [] => []
  | [w] => w
  | w :: rest => w ++ sep ++ join sep rest
  end.

(** [list(s)]: the one-character strings of [s]. *)
Definition chars (s : str) : list str := map (fun c => [c]) s.

End PyStr.
Import PyStr.
Arguments lit s%_string.

(* ================================================================== *)
(** * Exceptions                                                        *)
(* ================================================================== *)

(** [UnicodeDecodeError] and [UnicodeEncodeError] are kinds of
    [ValueError] in Python; they are kept apart here. *)
Inductive exn : Type :=
  | ValueError
  | OSError
  | UnicodeDecodeError
  | UnicodeEncodeError.

Inductive outcome (A : Type) : Type :=
  | Return (a : A)
  | Raise (e : exn).
Arguments Return {A} a.
Arguments Raise {A} e.

Definition bind {A B : Type} (m : outcome A) (k : A -> outcome B) : outcome B :=
  match m with
  | Return a => k a
  | Raise e => Raise e
  end.

Notation "x <- m ;; k" := (bind m (fun x => k))
  (at level 61, m at next level, right associativity).

(* ================================================================== *)
(** * collections.OrderedDict and sorted                                *)
(* ================================================================== *)

(** Key equality, as [__eq__] on dictionary keys. *)
Class KeyEq (K : Type) := key_eqb : K -> K -> bool.

#[global] Instance str_KeyEq : KeyEq str := str_eqb.
#[global] Instance Z_KeyEq : KeyEq Z := Z.eqb.

(** [key_eqb] decides equality of keys. *)
Class KeyEqLaws (K : Type) `{KeyEq K} :=
  key_eqb_eq : forall a b : K, key_eqb a b = true <-> a = b.

Section OrderedDict.
Context {K V : Type} `{KeyEq K}.

Definition OrderedDict := list (K * V).

(** [d.get(k)], [None] when absent. *)
Fixpoint od_get (k : K) (d : OrderedDict) : option V :=
  match d with
  | [] => None
  | (k', v) :: r => if key_eqb k k' then Some v else od_get k r
  end.

(** [d[k] = v]: an existing key keeps its position, a new one is
    appended. *)
Fixpoint od_set (k : K) (v : V) (d : OrderedDict) : OrderedDict :=
  match d with
  | [] => [(k, v)]
  | (k', v') :: r =>
      if key_eqb k k' then (k', v) :: r else (k', v') :: od_set k v r
  end.

(** [OrderedDict(pairs)]. *)
Definition od_of_list (l : list (K * V)) : OrderedDict :=
  fold_left (fun d kv => od_set (fst kv) (snd kv) d) l [].

(** The value of the last pair of [l] whose key is [k]. *)
Fixpoint assoc_last (k : K) (l : list (K * V)) : option V :=
  match l with
  | [] => None
  | (k', v) :: r =>
    match assoc_last k r with
    | Some x => Some x
    | None => if key_eqb k k' then Some v else None
    end
  end.

(** [d.items()], [len(d)]. *)
Definition od_items (d : OrderedDict) : list (K * V) := d.
Definition od_len (d : OrderedDict) : nat := length d.

End OrderedDict.
Arguments OrderedDict : clear implicits.

(** [sorted(l, key=key)]: stable, ascending. *)
Section Sorted.
Context {A : Type} (key : A -> Z).

Fixpoint insert_by (x : A) (l : list A) : list A :=
  match l with
  | [] => [x]
  | y :: r => if (key x <=? key y)%Z then x :: l else y :: insert_by x r
  end.

Definition sorted (l : list A) : list A := fold_right insert_by [] l.
End Sorted.

(** [enumerate(l, start)] and [enumerate(l)]. *)
Definition enumerate_from {A : Type} (start : nat) (l : list A) : list (Z * A) :=
  combine (map Z.of_nat (seq start (length l))) l.

Definition enumerate {A : Type} (l : list A) : list (Z * A) :=
  enumerate_from 0 l.

(* ================================================================== *)
(** * Files                                                             *)
(* ================================================================== *)

Module PyFile.

(** What a path names: a directory; a regular file that may neither be
    read nor written; a regular file, readable and writable, whose bytes
    are not UTF-8 at all; a regular file that may be read but not written,
    or one that may be read and written, whose bytes encode the code points
    [text] (a surrogate or a value above U+10FFFF among them is rejected by
    the decoder). *)
Inductive inode : Type :=
  | Directory
  | Unopenable
  | Undecodable
  | ReadOnly (text : str)
  | TextFile (text : str).

Definition filesystem := str -> option inode.

(** The code points the file-system encoding (UTF-8 with
    [surrogateescape]) accepts in a path. *)
Definition fs_encodable (c : char) : bool :=
  ((c <? 0xD800) || (0xDC80 <=? c) && (c <=? 0xDCFF)
   || (0xDFFF <? c) && (c <=? 0x10FFFF))%N.

(** What a call that hands the path to the operating system raises
    before anything is looked up: [UnicodeEncodeError] for a code point
    that cannot be encoded, [ValueError] for an embedded null. *)
Definition path_error (p : str) : option exn :=
  if negb (forallb fs_encodable p) then Some UnicodeEncodeError
  else if existsb (fun c => (c =? 0)%N) p then Some ValueError
  else None.

(** What the path names, if anything. *)
Definition stat (fs : filesystem) (p : str) : option inode :=
  match path_error p with
  | Some _ => None
  | None => fs p
  end.

(** [os.path.isfile(p)] and [os.path.isdir(p)]: false, with no
    exception, also for a path the operating system cannot take. *)
Definition isfile (fs : filesystem) (p : str) : bool :=
  match stat fs p with
  | Some Directory => false
  | Some _ => true
  | None => false
  end.

Definition isdir (fs : filesystem) (p : str) : bool :=
  match stat fs p with
  | Some Directory => true
  | _ => false
  end.

(** Universal newlines on reading: CR LF and a lone CR become LF. *)
Fixpoint translate_newlines (s : str) : str :=
  match s with
  | [] => []
  | c :: r =>
      if (c =? CR)%N then
        match r with
        | c' :: _ => if (c' =? LF)%N then translate_newlines r
                     else LF :: translate_newlines r
        | [] => [LF]
        end
      else c :: translate_newlines r
  end.

(** [open(p, "r", encoding="utf-8").read()]: [OSError] when there is
    nothing to open, [UnicodeDecodeError] when the bytes do not decode. *)
Definition read_text (fs : filesystem) (p : str) : outcome str :=
  match path_error p with
  | Some e => Raise e
  | None =>
      match fs p with
      | Some (ReadOnly text) | Some (TextFile text) =>
          if forallb scalar_value text then Return (translate_newlines text)
          else Raise UnicodeDecodeError
      | Some Undecodable => Raise UnicodeDecodeError
      | _ => Raise OSError
      end
  end.

(** [reader.readlines()] on the text read: lines keep their LF. *)
Fixpoint readlines (s : str) : list str :=
  match s with
  | [] => []
  | c :: r =>
      if (c =? LF)%N then [c] :: readlines r
      else match readlines r with
           | [] => [[c]]
           | l :: ls => (c :: l) :: ls
           end
  end.

Definition SLASH : char := 47%N.

Definition is_slash (c : char) : bool := (c =? SLASH)%N.

Definition startswith_slash (b : str) : bool :=
  match b with
  | c :: _ => is_slash c
  | [] => false
  end.

Definition endswith_slash (a : str) : bool := startswith_slash (rev a).

(** [os.path.dirname(p)] (posixpath). *)
Definition dirname (p : str) : str :=
  let head := rev (lstrip_if (fun c => negb (is_slash c)) (rev p)) in
  if forallb is_slash head then head else rstrip_if is_slash head.

(** [open(p, "w", encoding="utf-8")]: raises the error of a path the
    operating system cannot take, and [OSError] when the path is empty or
    ends with a slash, names a directory or a file that may not be
    written, or names nothing in a directory that does not exist (the
    working directory and the root exist). *)
Definition open_for_writing (fs : filesystem) (p : str) : outcome unit :=
  match path_error p with
  | Some e => Raise e
  | None =>
      if is_nil p || endswith_slash p then Raise OSError
      else
        match fs p with
        | Some Directory => Raise OSError
        | Some Unopenable => Raise OSError
        | Some (ReadOnly _) => Raise OSError
        | Some _ => Return tt
        | None =>
            if forallb is_slash (dirname p) || isdir fs (dirname p) then Return tt
            else Raise OSError
        end
  end.

(** The file system once a file opened for writing at [p] is closed,
    [text] having been written to it (on POSIX a line feed is written as
    it is; the device takes everything that is written). *)
Definition write_text (fs : filesystem) (p : str) (text : str) : filesystem :=
  fun q => if str_eqb q p then Some (TextFile text) else fs q.

(** [os.path.join(a, b)] (posixpath). *)
Definition path_join (a b : str) : str :=
  if startswith_slash b then b
  else if is_nil a || endswith_slash a then a ++ b
  else a ++ [SLASH] ++ b.

End PyFile.
Import PyFile.

(* ================================================================== *)
(** * tokenization.py                                                   *)
(* ================================================================== *)

Definition VOCAB_FILES_NAMES_vocab_file : str := lit "vocab.txt".

(** [load_vocab(vocab_file)]. *)
Definition load_vocab_lines (tokens : list str) : OrderedDict str Z :=
  fold_left
    (fun vocab it => od_set (rstrip_chars [LF] (snd it)) (fst it) vocab)
    (enumerate tokens) [].

Definition load_vocab (fs : filesystem) (vocab_file : str)
  : outcome (OrderedDict str Z) :=
  text <- read_text fs vocab_file ;;
  Return (load_vocab_lines (readlines text)).

(** [whitespace_tokenize(text)]. *)
Definition whitespace_tokenize (text : str) : list str :=
  let text := strip text in
  match text with
  | [] => []
  | _ => split text
  end.

(** A Python value that is an [int] or [None]. *)
Definition token_id := option Z.

Definition token_id_eqb (a b : token_id) : bool :=
  match a, b with
  | Some x, Some y => Z.eqb x y
  | None, None => true
  | _, _ => false
  end.

(** A record written by [logger.warning]. *)
Inductive log_record : Type :=
  | IndicesNotConsecutive (vocab_file : str).

Module KoCharElectraTokenizer.

(** The instance: the five special-token strings kept by the base
    class, and the two maps set by [__init__]. *)
Record t : Type := {
  unk_token : str;
  sep_token : str;
  pad_token : str;
  cls_token : str;
  mask_token : str;
  vocab : OrderedDict str Z;
  ids_to_tokens : OrderedDict Z str
}.

(** [__init__]: the base class's initializer keeps the special-token
    strings; the path must be a regular file, then the vocabulary is loaded
    and the reverse map built from its items. *)
Definition __init__ (fs : filesystem) (vocab_file : str)
    (unk_token sep_token pad_token cls_token mask_token : str) : outcome t :=
  if negb (isfile fs vocab_file) then Raise ValueError
  else
    vocab <- load_vocab fs vocab_file ;;
    Return {| unk_token := unk_token; sep_token := sep_token;
              pad_token := pad_token; cls_token := cls_token;
              mask_token := mask_token;
              vocab := vocab;
              ids_to_tokens :=
                od_of_list (map (fun kv => (snd kv, fst kv)) (od_items vocab)) |}.

Definition vocab_size (self : t) : nat := od_len (vocab self).

Definition _tokenize (self : t) (text : str) : list str :=
  chars (join [SPACE] (split text)).

Definition _convert_token_to_id (self : t) (token : str) : token_id :=
  match od_get token (vocab self) with
  | Some i => Some i
  | None => od_get (unk_token self) (vocab self)
  end.

(** The keys of [ids_to_tokens] are ints, so [None] is never found. *)
Definition _convert_id_to_token (self : t) (index : token_id) : str :=
  match index with
  | Some i => match od_get i (ids_to_tokens self) with
              | Some tok => tok
              | None => unk_token self
              end
  | None => unk_token self
  end.

Definition convert_tokens_to_string (self : t) (tokens : list str) : str :=
  strip (concat tokens).

(** The base class's properties [cls_token_id] and [sep_token_id]: the
    id the token string converts to (no added tokens). *)
Definition cls_token_id (self : t) : token_id :=
  _convert_token_to_id self (cls_token self).
Definition sep_token_id (self : t) : token_id :=
  _convert_token_to_id self (sep_token self).

Definition build_inputs_with_special_tokens (self : t)
    (token_ids_0 : list token_id) (token_ids_1 : option (list token_id))
  : list token_id :=
  match token_ids_1 with
  | None => [cls_token_id self] ++ token_ids_0 ++ [sep_token_id self]
  | Some token_ids_1 =>
      let cls := [cls_token_id self] in
      let sep := [sep_token_id self] in
      cls ++ token_ids_0 ++ sep ++ token_ids_1 ++ sep
  end.

Definition get_special_tokens_mask (self : t)
    (token_ids_0 : list token_id) (token_ids_1 : option (list token_id))
    (already_has_special_tokens : bool) : outcome (list Z) :=
  if already_has_special_tokens then
    match token_ids_1 with
    | Some _ => Raise ValueError
    | None =>
        Return (map (fun x =>
                       if existsb (token_id_eqb x)
                            [sep_token_id self; cls_token_id self]
                       then 1%Z else 0%Z) token_ids_0)
    end
  else
    match token_ids_1 with
    | Some token_ids_1 =>
        Return ([1%Z] ++ repeat 0%Z (length token_ids_0) ++ [1%Z]
                ++ repeat 0%Z (length token_ids_1) ++ [1%Z])
    | None => Return ([1%Z] ++ repeat 0%Z (length token_ids_0) ++ [1%Z])
    end.

Definition create_token_type_ids_from_sequences (self : t)
    (token_ids_0 : list token_id) (token_ids_1 : option (list token_id))
  : list Z :=
  let sep := [sep_token_id self] in
  let cls := [cls_token_id self] in
  match token_ids_1 with
  | None => repeat 0%Z (length (cls ++ token_ids_0 ++ sep))
  | Some token_ids_1 =>
      repeat 0%Z (length (cls ++ token_ids_0 ++ sep))
      ++ repeat 1%Z (length (token_ids_1 ++ sep))
  end.

(** The loop of [save_vocabulary]: the running [index], the text
    written so far and the warnings logged so far. The loop ends early,
    with what it wrote and logged until then, when [writer.write] cannot
    encode a token. *)
Record writer_state : Type := {
  index : Z;
  written : str;
  logged : list log_record
}.

Fixpoint write_items (vocab_file : str) (items : list (str * Z))
    (st : writer_state) : writer_state * outcome unit :=
  match items with
  | [] => (st, Return tt)
  | (token, token_index) :: rest =>
      let warn := negb (index st =? token_index)%Z in
      let index := if warn then token_index else index st in
      let logged :=
        if warn then logged st ++ [IndicesNotConsecutive vocab_file]
        else logged st in
      if forallb scalar_value (token ++ [LF])
      then write_items vocab_file rest
             {| index := (index + 1)%Z;
                written := written st ++ token ++ [LF];
                logged := logged |}
      else ({| index := index; written := written st; logged := logged |},
            Raise UnicodeEncodeError)
  end.

(** What a call of [save_vocabulary] leaves behind and what it returns
    or raises. *)
Record saved : Type := {
  saved_fs : filesystem;
  saved_log : list log_record;
  saved_return : outcome (list str)
}.

Definition save_vocabulary (fs : filesystem) (self : t) (vocab_path : str)
  : saved :=
  let vocab_file :=
    if isdir fs vocab_path
    then path_join vocab_path VOCAB_FILES_NAMES_vocab_file
    else vocab_path in
  match open_for_writing fs vocab_file with
  | Raise e => {| saved_fs := fs; saved_log := []; saved_return := Raise e |}
  | Return _ =>
      let run :=
        write_items vocab_file
          (sorted (fun kv : str * Z => snd kv) (od_items (vocab self)))
          {| index := 0; written := []; logged := [] |} in
      {| saved_fs := write_text fs vocab_file (written (fst run));
         saved_log := logged (fst run);
         saved_return := (_ <- snd run ;; Return [vocab_file]) |}
  end.

End KoCharElectraTokenizer.
Import KoCharElectraTokenizer.

(* ================================================================== *)
(** * The specification's own words                                     *)
(* ================================================================== *)

(** "Every run of whitespace collapsed to a single space": the first
    character of a run becomes a space, the rest of the run is dropped. *)
Fixpoint collapse_runs (in_run : bool) (s : str) : str :=
  match s with
  | [] => []
  | c :: r =>
      if isspace c
      then (if in_run then collapse_runs true r else SPACE :: collapse_runs true r)
      else c :: collapse_runs false r
  end.

(** "T with every internal run of whitespace collapsed to a single space
    and leading/trailing whitespace stripped". *)
Definition normalized (T : str) : str := collapse_runs false (strip T).

(** "The loaded ids are contiguous from 0": in ascending order they are
    0, 1, ..., n-1. *)
Definition ids_contiguous (d : OrderedDict str Z) : Prop :=
  map snd (sorted (fun kv : str * Z => snd kv) d)
  = map Z.of_nat (seq 0 (length d)).

(** [l] is [i], [i+1], [i+2], ... *)
Fixpoint consecutive_from (i : Z) (l : list Z) : Prop :=
  match l with
  | [] => True
  | x :: r => x = i /\ consecutive_from (i + 1) r
  end.

(** The token strings of the lines of a vocabulary text, in line order,
    and the assignments [vocab[token] = index] the loader performs. *)
Definition line_tokens (lines : list str) : list str :=
  map (rstrip_chars [LF]) lines.

Definition vocab_entries_from (start : nat) (lines : list str) : list (str * Z) :=
  map (fun it => (rstrip_chars [LF] (snd it), fst it)) (enumerate_from start lines).

Definition vocab_entries (lines : list str) : list (str * Z) :=
  vocab_entries_from 0 lines.

(** Line [j] is the last line whose token is [t]. *)
Definition last_line (toks : list str) (t : str) (j : nat) : Prop :=
  nth_error toks j = Some t /\
  forall k, j < k -> nth_error toks k <> Some t.

(** A text that is empty or ends with a line feed. *)
Fixpoint newline_terminated (s : str) : bool :=
  match s with
  | [] => true
  | c :: r =>
      match r with
      | [] => (c =? LF)%N
      | _ => newline_terminated r
      end
  end.

Definition no_carriage_return (s : str) : bool :=
  forallb (fun c => negb (c =? CR)%N) s.

(** A word: not empty, no whitespace in it. *)
Definition clean (w : str) : bool := forallb (fun c => negb (isspace c)) w.
Definition word (w : str) : Prop := w <> [] /\ clean w = true.

(** The reverse map holds exactly the forward map's pairs, swapped. *)
Definition in_sync (self : t) : Prop :=
  forall (i : Z) (tok : str),
    od_get i (ids_to_tokens self) = Some tok <-> od_get tok (vocab self) = Some i.

(** The token is a key of the vocabulary. *)
Definition in_vocab (self : t) (tok : str) : Prop :=
  od_get tok (vocab self) <> None.

(** The text that the regular file at [p] decodes to. *)
Definition file_text (fs : filesystem) (p : str) : option str :=
  match stat fs p with
  | Some (ReadOnly text) | Some (TextFile text) =>
      if forallb scalar_value text then Some text else None
  | _ => None
  end.

(** The construction claim as the spec words it: a vocabulary file that
    is missing or unreadable, or a special token that is not in the loaded
    vocabulary, makes construction raise. *)
Definition unresolved (fs : filesystem) (vocab_file tok : str) : Prop :=
  forall vocab, load_vocab fs vocab_file = Return vocab -> od_get tok vocab = None.

Definition construction_must_fail (fs : filesystem)
    (vocab_file unk sep pad cls mask : str) : Prop :=
  (file_text fs vocab_file = None
   \/ unresolved fs vocab_file unk \/ unresolved fs vocab_file sep
   \/ unresolved fs vocab_file pad \/ unresolved fs vocab_file cls
   \/ unresolved fs vocab_file mask) ->
  exists e, __init__ fs vocab_file unk sep pad cls mask = Raise e.

(** A vocabulary file without any special token. *)
Definition bare_fs : filesystem :=
  fun p => if str_eqb p (lit "vocab.txt")
           then Some (TextFile (lit "a" ++ [LF] ++ lit "b" ++ [LF]))
           else None.

(** A vocabulary file with a repeated token. *)
Definition repeated_fs : filesystem :=
  fun p => if str_eqb p (lit "vocab.txt")
           then Some (TextFile
                        (lit "a" ++ [LF] ++ lit "b" ++ [LF] ++ lit "a" ++ [LF]))
           else None.

(** A vocabulary file whose last line has no line feed. *)
Definition unterminated_fs : filesystem :=
  fun p => if str_eqb p (lit "vocab.txt")
           then Some (TextFile (lit "a" ++ [LF] ++ lit "b"))
           else None.

(** The spec's worked example. *)
Definition GA : char := 0xAC00%N.
Definition NA : char := 0xB098%N.

Definition example_vocab_text : str :=
  lit "[PAD]" ++ [LF] ++ lit "[UNK]" ++ [LF] ++ lit "[CLS]" ++ [LF]
  ++ lit "[SEP]" ++ [LF] ++ lit "[MASK]" ++ [LF]
  ++ [GA; LF; NA; LF; SPACE; LF].

Definition example_fs : filesystem :=
  fun p => if str_eqb p (lit "vocab.txt")
           then Some (TextFile example_vocab_text)
           else if str_eqb p (lit "out") then Some Directory
           else None.

Definition default_init (fs : filesystem) (vocab_file : str) : outcome t :=
  __init__ fs vocab_file (lit "[UNK]") (lit "[SEP]") (lit "[PAD]")
           (lit "[CLS]") (lit "[MASK]").

(** The save claim as the spec words it: after loading, when the loaded
    ids are contiguous from 0, saving writes the original text back. *)
Definition save_reproduces (fs : filesystem) (vocab_file vocab_path : str) : Prop :=
  forall tk text,
    default_init fs vocab_file = Return tk ->
    file_text fs vocab_file = Some text ->
    ids_contiguous (vocab tk) ->
    exists target,
      saved_return (save_vocabulary fs tk vocab_path) = Return [target]
      /\ file_text (saved_fs (save_vocabulary fs tk vocab_path)) target = Some text.

(** The second half of the save claim as the spec words it: when the ids
    are not contiguous from 0, saving logs a warning, still writes every
    token, one per line in ascending id order, and returns the path. *)
Definition save_warns_and_writes (fs : filesystem) (self : t) (vocab_path : str)
  : Prop :=
  ~ ids_contiguous (vocab self) ->
  saved_log (save_vocabulary fs self vocab_path) <> []
  /\ exists target,
       saved_return (save_vocabulary fs self vocab_path) = Return [target]
       /\ file_text (saved_fs (save_vocabulary fs self vocab_path)) target
          = Some (concat (map (fun kv => fst kv ++ [LF])
                            (sorted (fun kv : str * Z => snd kv)
                               (od_items (vocab self))))).

(** A vocabulary file with CR LF line ends. *)
Definition crlf_fs : filesystem :=
  fun p => if str_eqb p (lit "vocab.txt")
           then Some (TextFile (lit "a" ++ [CR; LF] ++ lit "b" ++ [CR; LF]))
           else None.

(** A vocabulary file beside a file that may not be opened, a file
    whose bytes are not UTF-8 and a file that may only be read. *)
Definition guarded_fs : filesystem :=
  fun p => if str_eqb p (lit "vocab.txt")
           then Some (TextFile (lit "a" ++ [LF] ++ lit "b" ++ [LF]))
           else if str_eqb p (lit "locked.txt") then Some Unopenable
           else if str_eqb p (lit "binary.txt") then Some Undecodable
           else if str_eqb p (lit "fixed.txt")
           then Some (ReadOnly (lit "a" ++ [LF] ++ lit "b" ++ [LF]))
           else None.

(** A tokenizer whose vocabulary was changed after loading: ids 2 and 1. *)
Definition gapped_tokenizer : t :=
  {| unk_token := lit "[UNK]"; sep_token := lit "[SEP]";
     pad_token := lit "[PAD]"; cls_token := lit "[CLS]";
     mask_token := lit "[MASK]";
     vocab := [(lit "a", 2%Z); (lit "b", 1%Z)];
     ids_to_tokens := [(2%Z, lit "a"); (1%Z, lit "b")] |}.

(** A tokenizer whose vocabulary was given a token that is a lone
    surrogate. *)
Definition surrogate_tokenizer : t :=
  {| unk_token := lit "[UNK]"; sep_token := lit "[SEP]";
     pad_token := lit "[PAD]"; cls_token := lit "[CLS]";
     mask_token := lit "[MASK]";
     vocab := [(lit "a", 1%Z); ([0xD800%N], 2%Z)];
     ids_to_tokens := [(1%Z, lit "a"); (2%Z, [0xD800%N])] |}.

(** Every code point of the token can be encoded. *)
Definition encodable (tok : str) : bool := forallb scalar_value tok.

(** Text to ids and ids to text, through the four methods above. *)
Definition encode (self : t) (text : str) : list token_id :=
  map (_convert_token_to_id self) (_tokenize self text).

Definition decode (self : t) (ids : list token_id) : str :=
  convert_tokens_to_string self (map (_convert_id_to_token self) ids).

(** [get_vocab]: [dict(self.vocab, **self.added_tokens_encoder)]. The
    base class's [added_tokens_encoder] is an argument here. *)
Definition get_vocab (self : t) (added_tokens_encoder : OrderedDict str Z)
  : OrderedDict str Z :=
  fold_left (fun d kv => od_set (fst kv) (snd kv) d)
    (od_items added_tokens_encoder) (vocab self).

(** The lines [load_vocab] gets from a file holding [text]. *)
Definition vocab_lines (text : str) : list str :=
  readlines (translate_newlines text).

(** No line feed and no carriage return in the token. *)
Definition no_line_break (tok : str) : bool :=
  forallb (fun c => negb (c =? LF)%N && negb (c =? CR)%N) tok.

(** An id list holds neither the separator id nor the classifier id. *)
Definition plain_ids (self : t) (ids : list token_id) : Prop :=
  Forall (fun x => x <> sep_token_id self /\ x <> cls_token_id self) ids.

(** The path [save_vocabulary] writes to. *)
Definition save_target (fs : filesystem) (vocab_path : str) : str :=
  if isdir fs vocab_path
  then path_join vocab_path VOCAB_FILES_NAMES_vocab_file
  else vocab_path.

Example example_encode :
  match default_init example_fs (lit "vocab.txt") with
  | Return tk =>
      encode tk [GA; SPACE; SPACE; NA] = [Some 5; Some 7; Some 6]%Z
      /\ build_inputs_with_special_tokens tk [Some 5; Some 7; Some 6]%Z None
         = [Some 2; Some 5; Some 7; Some 6; Some 3]%Z
      /\ get_special_tokens_mask tk [Some 5; Some 7; Some 6]%Z None false
         = Return [1; 0; 0; 0; 1]%Z
      /\ create_token_type_ids_from_sequences tk [Some 5; Some 7; Some 6]%Z None
         = [0; 0; 0; 0; 0]%Z
      /\ decode tk (encode tk [SPACE; GA; SPACE; SPACE; NA; LF]) = [GA; SPACE; NA]
  | Raise _ => False
  end.
Proof. vm_compute. repeat split; reflexivity. Qed.


(* ================================================================== *)
(** * Strings: strip, split and join                                    *)
(* ================================================================== *)

Section Strip.
Variable p : char -> bool.

Lemma rstrip_if_nil (s : str) :
  rstrip_if p s = [] <-> forallb p s = true.
Proof.
  induction s as [|c r IH]; simpl.
  - tauto.
  - destruct (rstrip_if p r) as [|x r'] eqn:E.
    + destruct (p c); simpl.
      * tauto.
      * split; discriminate.
    + split; [discriminate|].
      rewrite andb_true_iff. intros [_ Hr].
      apply IH in Hr. discriminate.
Qed.

Lemma rstrip_if_idem (s : str) :
  rstrip_if p (rstrip_if p s) = rstrip_if p s.
Proof.
  induction s as [|c r IH]; simpl; [reflexivity|].
  destruct (rstrip_if p r) as [|x r'] eqn:E.
  - destruct (p c) eqn:Hc; simpl; [reflexivity|]. now rewrite Hc.
  - change (rstrip_if p (c :: x :: r')) with
      (match rstrip_if p (x :: r') with
       | [] => if p c then [] else [c]
       | y => c :: y end).
    now rewrite IH.
Qed.

Lemma rstrip_if_fixed_cons (c : char) (r : str) :
  rstrip_if p (c :: r) = c :: r ->
  (r = [] /\ p c = false) \/ (r <> [] /\ rstrip_if p r = r).
Proof.
  simpl. destruct (rstrip_if p r) as [|x r'] eqn:E.
  - destruct (p c); [discriminate|].
    intros Heq. injection Heq as <-. now left.
  - intros Heq. injection Heq as <-. right. split; [discriminate|reflexivity].
Qed.

Lemma rstrip_if_none (s : str) :
  forallb p s = false -> rstrip_if p s <> [].
Proof.
  intros Hs Hn. apply rstrip_if_nil in Hn. congruence.
Qed.

Lemma rstrip_if_app_last (s : str) (c : char) :
  p c = false -> rstrip_if p (s ++ [c]) = s ++ [c].
Proof.
  intros Hc. induction s as [|x r IH]; simpl.
  - now rewrite Hc.
  - rewrite IH. destruct (r ++ [c]) eqn:E; [now destruct r|reflexivity].
Qed.

Lemma rstrip_if_strip_last (s : str) (c : char) :
  p c = true -> forallb (fun x => negb (p x)) s = true ->
  rstrip_if p (s ++ [c]) = s.
Proof.
  intros Hc. induction s as [|x r IH]; simpl.
  - now rewrite Hc.
  - rewrite andb_true_iff, negb_true_iff. intros [Hx Hr].
    rewrite (IH Hr). destruct r; [now rewrite Hx|reflexivity].
Qed.

Lemma rstrip_if_clean (s : str) :
  forallb (fun x => negb (p x)) s = true -> rstrip_if p s = s.
Proof.
  induction s as [|x r IH]; simpl; [reflexivity|].
  rewrite andb_true_iff, negb_true_iff. intros [Hx Hr].
  rewrite (IH Hr). destruct r; [now rewrite Hx|reflexivity].
Qed.

Lemma lstrip_if_clean_head (c : char) (s : str) :
  p c = false -> lstrip_if p (c :: s) = c :: s.
Proof. intros Hc. simpl. now rewrite Hc. Qed.

Lemma lstrip_if_head (s : str) :
  match lstrip_if p s with
  | [] => True
  | c :: _ => p c = false
  end.
Proof.
  induction s as [|c r IH]; simpl; [exact I|].
  destruct (p c) eqn:Hc; [exact IH|exact Hc].
Qed.

Lemma rstrip_if_head (c : char) (s : str) :
  p c = false -> exists r, rstrip_if p (c :: s) = c :: r.
Proof.
  intros Hc. simpl. destruct (rstrip_if p s) as [|x r'].
  - rewrite Hc. now exists [].
  - now exists (x :: r').
Qed.

Lemma rstrip_if_app_keep (a b : str) :
  rstrip_if p b <> [] -> rstrip_if p (a ++ b) = a ++ rstrip_if p b.
Proof.
  intros Hb. induction a as [|x r IH]; simpl; [reflexivity|].
  rewrite IH. destruct (r ++ rstrip_if p b) eqn:E; [|reflexivity].
  apply app_eq_nil in E. tauto.
Qed.

End Strip.

Lemma strip_head (s : str) :
  match strip s with
  | [] => True
  | c :: _ => isspace c = false
  end.
Proof.
  unfold strip. pose proof (lstrip_if_head isspace s) as H.
  destruct (lstrip_if isspace s) as [|c r]; [exact I|].
  destruct (rstrip_if_head isspace c r H) as [r' ->]. exact H.
Qed.

Lemma strip_no_trailing (s : str) :
  rstrip_if isspace (strip s) = strip s.
Proof. apply rstrip_if_idem. Qed.

Lemma flush_nil (cur : str) : flush cur = [] -> cur = [].
Proof. destruct cur; [reflexivity|discriminate]. Qed.

Lemma split_scan_blank (cur s : str) :
  rstrip_if isspace s = [] -> split_scan cur s = flush cur.
Proof.
  revert cur. induction s as [|c r IH]; intros cur; simpl; [reflexivity|].
  destruct (rstrip_if isspace r) as [|x r'] eqn:E; [|discriminate].
  destruct (isspace c); [|discriminate].
  intros _. rewrite (IH [] eq_refl). simpl. apply app_nil_r.
Qed.

Lemma split_scan_rstrip (cur s : str) :
  split_scan cur (rstrip_if isspace s) = split_scan cur s.
Proof.
  revert cur. induction s as [|c r IH]; intros cur; [reflexivity|].
  simpl rstrip_if.
  destruct (rstrip_if isspace r) as [|x r'] eqn:E.
  - simpl. destruct (isspace c) eqn:Hc.
    + rewrite (split_scan_blank [] r E). simpl. now rewrite app_nil_r.
    + simpl. rewrite Hc. now rewrite (split_scan_blank (c :: cur) r E).
  - simpl split_scan at 2. rewrite <- !IH.
    simpl. reflexivity.
Qed.

Lemma split_scan_lstrip (s : str) :
  split_scan [] (lstrip_if isspace s) = split_scan [] s.
Proof.
  induction s as [|c r IH]; simpl; [reflexivity|].
  destruct (isspace c) eqn:Hc; [exact IH|].
  simpl. now rewrite Hc.
Qed.

Lemma split_strip (s : str) : split (strip s) = split s.
Proof.
  unfold split, strip. now rewrite split_scan_rstrip, split_scan_lstrip.
Qed.

Lemma split_scan_nil (cur s : str) :
  split_scan cur s = [] -> cur = [] /\ rstrip_if isspace s = [].
Proof.
  revert cur. induction s as [|c r IH]; intros cur; simpl.
  - intros Hf. split; [now apply flush_nil|reflexivity].
  - destruct (isspace c) eqn:Hc.
    + intros Happ. apply app_eq_nil in Happ as [Hf Hr].
      apply IH in Hr as [_ Hr]. rewrite Hr. split; [now apply flush_nil|reflexivity].
    + intros Hr. apply IH in Hr as [Hcur _]. discriminate.
Qed.

Lemma join_cons (sep w : str) (ws : list str) :
  ws <> [] -> join sep (w :: ws) = w ++ sep ++ join sep ws.
Proof. destruct ws; [congruence|reflexivity]. Qed.

Lemma join_split_scan (s cur : str) :
  rstrip_if isspace s = s ->
  join [SPACE] (split_scan cur s) = rev cur ++ collapse_runs (is_nil cur) s.
Proof.
  revert cur. induction s as [|c r IH]; intros cur Hfix.
  - simpl. destruct cur; simpl; [reflexivity|]. now rewrite app_nil_r.
  - destruct (rstrip_if_fixed_cons isspace c r Hfix) as [[-> Hc]|[Hne Hr]].
    + simpl. rewrite Hc. reflexivity.
    + simpl. destruct (isspace c) eqn:Hc.
      * destruct cur as [|x cur'].
        -- simpl. exact (IH [] Hr).
        -- assert (Hs : split_scan [] r <> []).
           { intros Hn. apply split_scan_nil in Hn as [_ Hn]. congruence. }
           change (flush (x :: cur') ++ split_scan [] r)
             with (rev (x :: cur') :: split_scan [] r).
           rewrite (join_cons _ _ _ Hs), (IH [] Hr). reflexivity.
      * rewrite (IH (c :: cur) Hr). simpl. now rewrite <- app_assoc.
Qed.

Lemma collapse_runs_head (s : str) :
  match s with
  | [] => True
  | c :: _ => isspace c = false
  end ->
  collapse_runs true s = collapse_runs false s.
Proof.
  destruct s as [|c r]; [reflexivity|].
  simpl. now intros ->.
Qed.

(** [" ".join(text.split())] is the text with its whitespace runs
    collapsed and its ends stripped. *)
Lemma join_split_normalized (text : str) :
  join [SPACE] (split text) = normalized text.
Proof.
  unfold normalized. rewrite <- (split_strip text). unfold split.
  rewrite (join_split_scan _ [] (strip_no_trailing text)). simpl.
  apply collapse_runs_head, strip_head.
Qed.

Lemma flush_rev (w : str) : w <> [] -> flush (rev w) = [w].
Proof.
  intros Hne. unfold flush. destruct (rev w) eqn:E.
  - apply (f_equal (@rev char)) in E. rewrite rev_involutive in E. contradiction.
  - now rewrite <- E, rev_involutive.
Qed.

Lemma split_scan_word (w cur s : str) :
  clean w = true -> split_scan cur (w ++ s) = split_scan (rev w ++ cur) s.
Proof.
  revert cur. induction w as [|c r IH]; intros cur; simpl; [reflexivity|].
  rewrite andb_true_iff, negb_true_iff. intros [Hc Hr].
  rewrite Hc, (IH _ Hr). now rewrite <- app_assoc.
Qed.

Lemma split_blank_prefix (lead s : str) :
  forallb isspace lead = true -> split (lead ++ s) = split s.
Proof.
  unfold split. induction lead as [|c r IH]; simpl; [reflexivity|].
  rewrite andb_true_iff. intros [-> Hr]. exact (IH Hr).
Qed.

Lemma split_blank (s : str) : forallb isspace s = true -> split s = [].
Proof.
  intros Hs. unfold split. apply (split_scan_blank [] s).
  now apply rstrip_if_nil.
Qed.

Lemma split_word_then (w s : str) (c : char) :
  word w -> isspace c = true -> split (w ++ c :: s) = w :: split s.
Proof.
  intros [Hne Hw] Hc. unfold split. rewrite (split_scan_word w [] _ Hw).
  simpl. rewrite Hc, app_nil_r, (flush_rev w Hne). reflexivity.
Qed.

Lemma split_single_word (w : str) : word w -> split w = [w].
Proof.
  intros [Hne Hw]. unfold split.
  rewrite <- (app_nil_r w) at 1. rewrite (split_scan_word w [] _ Hw).
  simpl. rewrite app_nil_r. now apply flush_rev.
Qed.

Lemma clean_rev (w : str) : clean (rev w) = clean w.
Proof.
  unfold clean. induction w as [|c r IH]; simpl; [reflexivity|].
  rewrite forallb_app, IH. simpl. rewrite andb_true_r. apply andb_comm.
Qed.

Lemma split_scan_words (s cur : str) :
  clean cur = true -> Forall word (split_scan cur s).
Proof.
  revert cur. induction s as [|c r IH]; intros cur Hcur; simpl.
  - destruct cur as [|x cur']; constructor; [|constructor].
    split; [|now rewrite clean_rev].
    intros E. apply (f_equal (@length char)) in E. rewrite length_rev in E.
    discriminate.
  - destruct (isspace c) eqn:Hc.
    + apply Forall_app. split; [|now apply IH].
      destruct cur as [|x cur']; constructor; [|constructor].
      split; [|now rewrite clean_rev].
      intros E. apply (f_equal (@length char)) in E. rewrite length_rev in E.
      discriminate.
    + apply IH. simpl. now rewrite Hc.
Qed.

Lemma split_words (s : str) : Forall word (split s).
Proof. now apply split_scan_words. Qed.

Lemma join_words_nonempty (ws : list str) :
  Forall word ws -> ws <> [] -> join [SPACE] ws <> [].
Proof.
  intros Hws Hne. destruct ws as [|w rest]; [congruence|].
  inversion Hws as [|? ? [Hw _] _]; subst.
  destruct rest; simpl; [exact Hw|].
  destruct w; [congruence|discriminate].
Qed.

Lemma join_words_rstrip (ws : list str) :
  Forall word ws -> rstrip_if isspace (join [SPACE] ws) = join [SPACE] ws.
Proof.
  induction 1 as [|w rest [Hne Hw] Hrest IH]; [reflexivity|].
  destruct rest as [|w' rest'].
  - simpl. now apply rstrip_if_clean.
  - rewrite join_cons by discriminate.
    rewrite app_assoc, rstrip_if_app_keep; rewrite IH; [reflexivity|].
    apply join_words_nonempty; [exact Hrest|discriminate].
Qed.

Lemma join_words_strip (ws : list str) :
  Forall word ws -> strip (join [SPACE] ws) = join [SPACE] ws.
Proof.
  intros Hws. unfold strip.
  assert (Hl : lstrip_if isspace (join [SPACE] ws) = join [SPACE] ws).
  { destruct Hws as [|w rest [Hne Hw] Hrest]; [reflexivity|].
    destruct w as [|c w']; [congruence|].
    simpl in Hw. apply andb_true_iff in Hw as [Hc _].
    apply negb_true_iff in Hc.
    destruct rest; simpl; now rewrite Hc. }
  rewrite Hl. now apply join_words_rstrip.
Qed.

Lemma concat_chars (s : str) : concat (chars s) = s.
Proof.
  unfold chars. induction s as [|c r IH]; simpl; [reflexivity|]. now rewrite IH.
Qed.

Lemma strip_normalized (text : str) : strip (normalized text) = normalized text.
Proof.
  rewrite <- join_split_normalized. apply join_words_strip, split_words.
Qed.

(* ================================================================== *)
(** * OrderedDict                                                       *)
(* ================================================================== *)

Lemma str_eqb_eq (a b : str) : str_eqb a b = true <-> a = b.
Proof.
  revert b. induction a as [|x a IH]; intros [|y b]; simpl;
    try (split; [discriminate|congruence]); [tauto|].
  rewrite andb_true_iff, N.eqb_eq, IH. split.
  - intros [-> ->]. reflexivity.
  - intros Heq. injection Heq as -> ->. now split.
Qed.

#[global] Instance str_KeyEqLaws : KeyEqLaws str.
Proof. exact str_eqb_eq. Qed.

#[global] Instance Z_KeyEqLaws : KeyEqLaws Z.
Proof. exact Z.eqb_eq. Qed.

Section OrderedDictFacts.
Context {K V : Type} `{KeyEqLaws K}.

Lemma key_eqb_refl (k : K) : key_eqb k k = true.
Proof. now apply key_eqb_eq. Qed.

Lemma key_eqb_neq (a b : K) : key_eqb a b = false <-> a <> b.
Proof.
  rewrite <- key_eqb_eq. destruct (key_eqb a b); split; congruence.
Qed.

Lemma od_get_set (k k' : K) (v : V) (d : OrderedDict K V) :
  od_get k (od_set k' v d) = if key_eqb k k' then Some v else od_get k d.
Proof.
  induction d as [|[k0 v0] r IH]; simpl; [reflexivity|].
  destruct (key_eqb k' k0) eqn:E'; simpl.
  - apply key_eqb_eq in E'. subst k0.
    destruct (key_eqb k k'); reflexivity.
  - rewrite IH. destruct (key_eqb k k0) eqn:E0; [|reflexivity].
    apply key_eqb_eq in E0. subst k0.
    destruct (key_eqb k k') eqn:E; [|reflexivity].
    apply key_eqb_eq in E. subst k'. rewrite key_eqb_refl in E'. discriminate.
Qed.

Lemma od_get_fold (l : list (K * V)) (d : OrderedDict K V) (k : K) :
  od_get k (fold_left (fun d kv => od_set (fst kv) (snd kv) d) l d)
  = match assoc_last k l with
    | Some v => Some v
    | None => od_get k d
    end.
Proof.
  revert d. induction l as [|[k0 v0] r IH]; intros d; simpl; [reflexivity|].
  rewrite IH. destruct (assoc_last k r); [reflexivity|].
  rewrite od_get_set. destruct (key_eqb k k0); reflexivity.
Qed.

Lemma od_get_of_list (l : list (K * V)) (k : K) :
  od_get k (od_of_list l) = assoc_last k l.
Proof.
  unfold od_of_list. rewrite od_get_fold. now destruct (assoc_last k l).
Qed.

Lemma assoc_last_In (k : K) (v : V) (l : list (K * V)) :
  assoc_last k l = Some v -> In (k, v) l.
Proof.
  induction l as [|[k0 v0] r IH]; simpl; [discriminate|].
  destruct (assoc_last k r) as [x|].
  - intros Hx. right. now apply IH.
  - destruct (key_eqb k k0) eqn:E; [|discriminate].
    apply key_eqb_eq in E. subst k0. intros Hv. injection Hv as ->. now left.
Qed.

Lemma assoc_last_absent (k : K) (l : list (K * V)) :
  ~ In k (map fst l) -> assoc_last k l = None.
Proof.
  induction l as [|[k0 v0] r IH]; simpl; [reflexivity|].
  intros Hn. rewrite IH by tauto.
  destruct (key_eqb k k0) eqn:E; [|reflexivity].
  apply key_eqb_eq in E. subst k0. tauto.
Qed.

Lemma assoc_last_unique (k : K) (v : V) (l : list (K * V)) :
  In (k, v) l -> (forall v', In (k, v') l -> v' = v) -> assoc_last k l = Some v.
Proof.
  induction l as [|[k0 v0] r IH]; simpl; [contradiction|].
  intros Hin Huniq.
  destruct (assoc_last k r) as [x|] eqn:E.
  - apply assoc_last_In in E. f_equal. apply Huniq. now right.
  - destruct Hin as [Heq|Hin].
    + injection Heq as Hk Hv. subst k0 v0. now rewrite key_eqb_refl.
    + exfalso. assert (Hsome : None = Some v); [|discriminate Hsome].
      apply IH; [exact Hin|]. intros v' Hv'. apply Huniq. now right.
Qed.

Lemma od_get_In (k : K) (v : V) (d : OrderedDict K V) :
  od_get k d = Some v -> In (k, v) d.
Proof.
  induction d as [|[k0 v0] r IH]; simpl; [discriminate|].
  destruct (key_eqb k k0) eqn:E.
  - apply key_eqb_eq in E. subst k0. intros Hv. injection Hv as ->. now left.
  - intros Hr. right. now apply IH.
Qed.

Lemma od_get_None (k : K) (d : OrderedDict K V) :
  od_get k d = None <-> ~ In k (map fst d).
Proof.
  induction d as [|[k0 v0] r IH]; simpl; [tauto|].
  destruct (key_eqb k k0) eqn:E.
  - apply key_eqb_eq in E. subst k0. split; [discriminate|tauto].
  - apply key_eqb_neq in E. rewrite IH. split; [|tauto].
    intros Hn [Heq|Hin]; [congruence|tauto].
Qed.

Lemma od_In_get (k : K) (v : V) (d : OrderedDict K V) :
  NoDup (map fst d) -> In (k, v) d -> od_get k d = Some v.
Proof.
  induction d as [|[k0 v0] r IH]; simpl; [contradiction|].
  intros Hnd Hin. inversion Hnd as [|? ? Hk0 Hr]; subst.
  destruct Hin as [Heq|Hin].
  - injection Heq as Hk Hv. subst k0 v0. now rewrite key_eqb_refl.
  - destruct (key_eqb k k0) eqn:E; [|now apply IH].
    apply key_eqb_eq in E. subst k0. exfalso. apply Hk0.
    apply (in_map fst) in Hin. exact Hin.
Qed.

Lemma od_set_fresh (k : K) (v : V) (d : OrderedDict K V) :
  od_get k d = None -> od_set k v d = d ++ [(k, v)].
Proof.
  induction d as [|[k0 v0] r IH]; simpl; [reflexivity|].
  destruct (key_eqb k k0); [discriminate|].
  intros Hr. now rewrite IH.
Qed.

Lemma od_set_present (k : K) (v : V) (d : OrderedDict K V) :
  od_get k d <> None -> map fst (od_set k v d) = map fst d.
Proof.
  induction d as [|[k0 v0] r IH]; simpl; [congruence|].
  destruct (key_eqb k k0); simpl; [reflexivity|].
  intros Hr. now rewrite IH.
Qed.

Lemma od_set_length (k : K) (v : V) (d : OrderedDict K V) :
  length (od_set k v d)
  = match od_get k d with
    | Some _ => length d
    | None => S (length d)
    end.
Proof.
  induction d as [|[k0 v0] r IH]; simpl; [reflexivity|].
  destruct (key_eqb k k0); simpl; [reflexivity|].
  rewrite IH. now destruct (od_get k r).
Qed.

Lemma od_set_NoDup (k : K) (v : V) (d : OrderedDict K V) :
  NoDup (map fst d) -> NoDup (map fst (od_set k v d)).
Proof.
  intros Hnd. destruct (od_get k d) as [x|] eqn:E.
  - rewrite od_set_present by congruence. exact Hnd.
  - rewrite od_set_fresh by exact E. rewrite map_app. simpl.
    apply od_get_None in E.
    apply NoDup_app; [exact Hnd|constructor; [intros []|constructor]|].
    intros a Ha [<-|[]]. contradiction.
Qed.

Lemma od_fold_NoDup (l : list (K * V)) (d : OrderedDict K V) :
  NoDup (map fst d) ->
  NoDup (map fst (fold_left (fun d kv => od_set (fst kv) (snd kv) d) l d)).
Proof.
  revert d. induction l as [|[k0 v0] r IH]; intros d Hd; simpl; [exact Hd|].
  apply IH. now apply od_set_NoDup.
Qed.

Lemma od_get_app_fresh (k : K) (d e : OrderedDict K V) :
  od_get k d = None -> od_get k (d ++ e) = od_get k e.
Proof.
  induction d as [|[k0 v0] r IH]; simpl; [reflexivity|].
  destruct (key_eqb k k0); [discriminate|exact IH].
Qed.

(** Assignments to keys that are all new are appended in order. *)
Lemma od_fold_fresh (l : list (K * V)) (d : OrderedDict K V) :
  NoDup (map fst l) ->
  (forall k, In k (map fst l) -> od_get k d = None) ->
  fold_left (fun d kv => od_set (fst kv) (snd kv) d) l d = d ++ l.
Proof.
  revert d. induction l as [|[k0 v0] r IH]; intros d Hnd Hfresh; simpl.
  - now rewrite app_nil_r.
  - inversion Hnd as [|? ? Hk0 Hr]; subst.
    rewrite od_set_fresh by (apply Hfresh; now left).
    rewrite IH; [now rewrite <- app_assoc|exact Hr|].
    intros k Hk. rewrite od_get_app_fresh by (apply Hfresh; now right).
    simpl. destruct (key_eqb k k0) eqn:E; [|reflexivity].
    apply key_eqb_eq in E. subst k0. contradiction.
Qed.

Lemma od_fold_length (l : list (K * V)) (d : OrderedDict K V) :
  length (fold_left (fun d kv => od_set (fst kv) (snd kv) d) l d)
  <= length d + length l.
Proof.
  revert d. induction l as [|[k0 v0] r IH]; intros d; simpl; [lia|].
  specialize (IH (od_set k0 v0 d)). rewrite od_set_length in IH.
  destruct (od_get k0 d); lia.
Qed.

(** When no assignment overwrote, the keys assigned were all new. *)
Lemma od_fold_full (l : list (K * V)) (d : OrderedDict K V) :
  length (fold_left (fun d kv => od_set (fst kv) (snd kv) d) l d)
  = length d + length l ->
  NoDup (map fst l) /\ (forall k, In k (map fst l) -> od_get k d = None).
Proof.
  revert d. induction l as [|[k0 v0] r IH]; intros d; simpl.
  - intros _. split; [constructor|contradiction].
  - intros Hlen.
    pose proof (od_fold_length r (od_set k0 v0 d)) as Hle.
    pose proof (od_set_length k0 v0 d) as Hset.
    destruct (od_get k0 d) as [x|] eqn:E; [lia|].
    destruct (IH (od_set k0 v0 d)) as [Hnd Hfresh]; [lia|].
    assert (Hk0 : ~ In k0 (map fst r)).
    { intros Hin. apply Hfresh in Hin. rewrite od_get_set, key_eqb_refl in Hin.
      discriminate. }
    split; [now constructor|].
    intros k [<-|Hin]; [exact E|].
    specialize (Hfresh k Hin). rewrite od_get_set in Hfresh.
    destruct (key_eqb k k0); [discriminate|exact Hfresh].
Qed.

End OrderedDictFacts.

Section AssocLast.
Context {K V : Type} `{KeyEqLaws K}.

Lemma assoc_last_None (k : K) (l : list (K * V)) :
  assoc_last k l = None -> ~ In k (map fst l).
Proof.
  induction l as [|[k0 v0] r IH]; simpl; [tauto|].
  destruct (assoc_last k r); [discriminate|].
  destruct (key_eqb k k0) eqn:E; [discriminate|].
  apply key_eqb_neq in E. intros _ [Heq|Hin]; [congruence|].
  now apply IH.
Qed.

End AssocLast.

(* ================================================================== *)
(** * Vocabulary store: load_vocab                                      *)
(* ================================================================== *)

Lemma vocab_entries_from_cons (a : nat) (x : str) (r : list str) :
  vocab_entries_from a (x :: r)
  = (rstrip_chars [LF] x, Z.of_nat a) :: vocab_entries_from (S a) r.
Proof. reflexivity. Qed.

Lemma vocab_entries_from_keys (a : nat) (l : list str) :
  map fst (vocab_entries_from a l) = line_tokens l.
Proof.
  revert a. induction l as [|x r IH]; intros a; [reflexivity|].
  rewrite vocab_entries_from_cons. simpl. now rewrite IH.
Qed.

Lemma vocab_entries_from_ids (a : nat) (l : list str) :
  map snd (vocab_entries_from a l) = map Z.of_nat (seq a (length l)).
Proof.
  revert a. induction l as [|x r IH]; intros a; [reflexivity|].
  rewrite vocab_entries_from_cons. simpl. now rewrite IH.
Qed.

Lemma vocab_entries_from_length (a : nat) (l : list str) :
  length (vocab_entries_from a l) = length l.
Proof.
  rewrite <- (length_map fst), vocab_entries_from_keys. apply length_map.
Qed.

Lemma assoc_last_entries_sound (l : list str) (a : nat) (t : str) (z : Z) :
  assoc_last t (vocab_entries_from a l) = Some z ->
  exists j, z = Z.of_nat (a + j) /\ last_line (line_tokens l) t j.
Proof.
  revert a. induction l as [|x r IH]; intros a; [discriminate|].
  rewrite vocab_entries_from_cons. simpl.
  destruct (assoc_last t (vocab_entries_from (S a) r)) as [v|] eqn:E.
  - intros Hv. injection Hv as ->.
    destruct (IH _ E) as (j & -> & Hj & Hlast).
    exists (S j). split; [f_equal; lia|]. split; [exact Hj|].
    intros [|k] Hk; [lia|]. simpl. apply Hlast. lia.
  - destruct (key_eqb t (rstrip_chars [LF] x)) eqn:Ek; [|discriminate].
    apply key_eqb_eq in Ek. intros Hv. injection Hv as <-.
    exists 0. split; [f_equal; lia|]. split; [simpl; now rewrite Ek|].
    intros [|k] Hk; [lia|]. simpl. intros Hn.
    apply assoc_last_None in E. apply E.
    rewrite vocab_entries_from_keys. eapply nth_error_In; eassumption.
Qed.

Lemma assoc_last_entries_complete (l : list str) (a : nat) (t : str) (j : nat) :
  last_line (line_tokens l) t j ->
  assoc_last t (vocab_entries_from a l) = Some (Z.of_nat (a + j)).
Proof.
  revert a j. induction l as [|x r IH]; intros a j [Hj Hlast].
  - destruct j; discriminate.
  - rewrite vocab_entries_from_cons. simpl. destruct j as [|j].
    + simpl in Hj. injection Hj as Hx.
      rewrite assoc_last_absent.
      * rewrite Hx, key_eqb_refl. f_equal. f_equal. lia.
      * rewrite vocab_entries_from_keys. intros Hin.
        apply In_nth_error in Hin as [k Hk]. apply (Hlast (S k)); [lia|exact Hk].
    + rewrite (IH (S a) j).
      * f_equal. f_equal. lia.
      * split; [exact Hj|]. intros k Hk. apply (Hlast (S k)). lia.
Qed.

Lemma load_vocab_lines_of_list (lines : list str) :
  load_vocab_lines lines = od_of_list (vocab_entries lines).
Proof.
  unfold load_vocab_lines, od_of_list, vocab_entries, vocab_entries_from, enumerate.
  generalize (@nil (str * Z)). generalize (enumerate_from 0 lines).
  induction l as [|it r IH]; intros d; simpl; [reflexivity|]. apply IH.
Qed.

Lemma load_vocab_lines_get (lines : list str) (t : str) (z : Z) :
  od_get t (load_vocab_lines lines) = Some z <->
  exists j, z = Z.of_nat j /\ last_line (line_tokens lines) t j.
Proof.
  rewrite load_vocab_lines_of_list, od_get_of_list. unfold vocab_entries. split.
  - intros Hz. apply assoc_last_entries_sound in Hz. exact Hz.
  - intros (j & -> & Hj). now apply (assoc_last_entries_complete lines 0).
Qed.

Lemma load_vocab_lines_NoDup (lines : list str) :
  NoDup (map fst (load_vocab_lines lines)).
Proof.
  rewrite load_vocab_lines_of_list. unfold od_of_list.
  apply od_fold_NoDup. constructor.
Qed.

(** Two tokens never share an id in a loaded vocabulary. *)
Lemma load_vocab_lines_injective (lines : list str) (t t' : str) (z : Z) :
  od_get t (load_vocab_lines lines) = Some z ->
  od_get t' (load_vocab_lines lines) = Some z ->
  t = t'.
Proof.
  rewrite !load_vocab_lines_get.
  intros (j & -> & Hj & _) (j' & Hz & Hj' & _).
  apply Nat2Z.inj in Hz. subst j'. congruence.
Qed.

(** The reverse map built by [__init__] from a loaded vocabulary. *)
Lemma reverse_map_get (lines : list str) (i : Z) (tok : str) :
  od_get i (od_of_list (map (fun kv => (snd kv, fst kv))
                            (od_items (load_vocab_lines lines)))) = Some tok
  <-> od_get tok (load_vocab_lines lines) = Some i.
Proof.
  rewrite od_get_of_list. unfold od_items. split.
  - intros Hi. apply assoc_last_In in Hi. apply in_map_iff in Hi as ([k v] & Heq & Hin).
    simpl in Heq. injection Heq as -> ->.
    apply od_In_get; [apply load_vocab_lines_NoDup|exact Hin].
  - intros Ht. apply assoc_last_unique.
    + apply od_get_In in Ht. apply in_map_iff. now exists (tok, i).
    + intros tok' Hin. apply in_map_iff in Hin as ([k v] & Heq & Hin).
      simpl in Heq. injection Heq as -> ->.
      apply od_In_get in Hin; [|apply load_vocab_lines_NoDup].
      eapply load_vocab_lines_injective; eassumption.
Qed.

Lemma read_text_Return (fs : filesystem) (p t : str) :
  read_text fs p = Return t
  <-> exists text, file_text fs p = Some text /\ t = translate_newlines text.
Proof.
  unfold read_text, file_text, stat.
  destruct (path_error p);
    [split; [discriminate|intros (text' & Habs & _); discriminate]|].
  destruct (fs p) as [[| | |text|text]|]; try (split; [discriminate|]);
    try (intros (text' & Habs & _); discriminate).
  all: destruct (forallb scalar_value text).
  all: split; try discriminate.
  all: try (intros (text' & Habs & _); discriminate).
  all: try (intros Hret; injection Hret as <-; now exists text).
  all: intros (text' & Heq & ->); injection Heq as <-; reflexivity.
Qed.

Lemma file_text_isfile (fs : filesystem) (p text : str) :
  file_text fs p = Some text -> isfile fs p = true.
Proof.
  unfold file_text, isfile.
  destruct (stat fs p) as [[| | |text'|text']|]; try discriminate.
  all: reflexivity.
Qed.

Lemma file_text_scalar (fs : filesystem) (p text : str) :
  file_text fs p = Some text -> forallb scalar_value text = true.
Proof.
  unfold file_text. destruct (stat fs p) as [[| | |text'|text']|]; try discriminate.
  all: destruct (forallb scalar_value text') eqn:E; [|discriminate].
  all: intros Heq; injection Heq as <-; exact E.
Qed.

(** What a successful construction returns. *)
Lemma init_inv (fs : filesystem) (vocab_file unk sep pad cls mask : str) (tk : t) :
  __init__ fs vocab_file unk sep pad cls mask = Return tk ->
  exists text,
    file_text fs vocab_file = Some text /\
    vocab tk = load_vocab_lines (readlines (translate_newlines text)) /\
    ids_to_tokens tk
    = od_of_list (map (fun kv => (snd kv, fst kv)) (od_items (vocab tk))) /\
    unk_token tk = unk /\ sep_token tk = sep /\ pad_token tk = pad /\
    cls_token tk = cls /\ mask_token tk = mask.
Proof.
  unfold __init__, load_vocab.
  destruct (isfile fs vocab_file); simpl; [|discriminate].
  destruct (read_text fs vocab_file) as [t|e] eqn:E; simpl; [|discriminate].
  apply read_text_Return in E as (text & Htext & ->).
  intros Hret. injection Hret as <-. exists text. simpl. repeat split.
  exact Htext.
Qed.

Lemma init_in_sync (fs : filesystem) (vocab_file unk sep pad cls mask : str) (tk : t) :
  __init__ fs vocab_file unk sep pad cls mask = Return tk -> in_sync tk.
Proof.
  intros Hinit. destruct (init_inv _ _ _ _ _ _ _ _ Hinit) as (text & _ & Hv & Hr & _).
  intros i tok. rewrite Hr, Hv. apply reverse_map_get.
Qed.

(* ================================================================== *)
(** * Sequence assembler                                                *)
(* ================================================================== *)

(** C8. For every id sequence A, [build_inputs(A)] is the classifier id,
    then A, then the separator id, of length len(A)+2; for every pair A, B
    it is the classifier id, A, the separator id, B, the separator id, of
    length len(A)+len(B)+3. *)
Theorem build_inputs_layout (self : t) (A B : list token_id) :
  build_inputs_with_special_tokens self A None
  = cls_token_id self :: A ++ [sep_token_id self]
  /\ length (build_inputs_with_special_tokens self A None) = length A + 2
  /\ build_inputs_with_special_tokens self A (Some B)
     = cls_token_id self :: A ++ sep_token_id self :: B ++ [sep_token_id self]
  /\ length (build_inputs_with_special_tokens self A (Some B))
     = length A + length B + 3.
Proof.
  unfold build_inputs_with_special_tokens. simpl.
  repeat split; rewrite ?length_app; simpl; rewrite ?length_app; simpl; lia.
Qed.

(** C10. [segment_ids(A)] is len(A)+2 zeros; [segment_ids(A, B)] is
    len(A)+2 zeros followed by len(B)+1 ones; the result is the same for
    any tokenizer and any sequences of the same lengths. *)
Theorem segment_ids_layout (self : t) (A B : list token_id) :
  create_token_type_ids_from_sequences self A None = repeat 0%Z (length A + 2)
  /\ create_token_type_ids_from_sequences self A (Some B)
     = repeat 0%Z (length A + 2) ++ repeat 1%Z (length B + 1)
  /\ forall (self' : t) (A' B' : list token_id),
       length A' = length A -> length B' = length B ->
       create_token_type_ids_from_sequences self' A' None
       = create_token_type_ids_from_sequences self A None
       /\ create_token_type_ids_from_sequences self' A' (Some B')
          = create_token_type_ids_from_sequences self A (Some B).
Proof.
  unfold create_token_type_ids_from_sequences.
  assert (HA : forall (c s : token_id) (X : list token_id),
             length ([c] ++ X ++ [s]) = length X + 2).
  { intros c s X. rewrite !length_app. simpl. lia. }
  assert (HB : forall (s : token_id) (X : list token_id),
             length (X ++ [s]) = length X + 1).
  { intros s X. now rewrite length_app. }
  split; [|split].
  - now rewrite HA.
  - now rewrite HA, HB.
  - intros self' A' B' HeqA HeqB. rewrite !HA, !HB.
    now rewrite HeqA, HeqB.
Qed.

Lemma segment_ids_layout_witness :
  create_token_type_ids_from_sequences
    {| unk_token := []; sep_token := []; pad_token := []; cls_token := [];
       mask_token := []; vocab := []; ids_to_tokens := [] |}
    [Some 9%Z] (Some [None])
  = create_token_type_ids_from_sequences
      {| unk_token := lit "u"; sep_token := []; pad_token := []; cls_token := [];
         mask_token := []; vocab := [(lit "u", 4%Z)]; ids_to_tokens := [] |}
      [Some 5%Z] (Some [Some 6%Z]).
Proof.
  apply (segment_ids_layout
           {| unk_token := lit "u"; sep_token := []; pad_token := [];
              cls_token := []; mask_token := []; vocab := [(lit "u", 4%Z)];
              ids_to_tokens := [] |}
           [Some 5%Z] [Some 6%Z]); reflexivity.
Defined.

Lemma nth_zeros_then (n i : nat) (x : Z) (rest : list Z) :
  nth i (repeat 0%Z n ++ x :: rest) 0%Z
  = if i <? n then 0%Z
    else if i =? n then x
    else nth (i - n - 1) rest 0%Z.
Proof.
  destruct (Nat.ltb_spec i n) as [Hlt|Hge].
  - rewrite app_nth1 by (now rewrite repeat_length). apply nth_repeat.
  - rewrite app_nth2 by (rewrite repeat_length; lia). rewrite repeat_length.
    destruct (Nat.eqb_spec i n) as [->|Hne].
    + now rewrite Nat.sub_diag.
    + destruct (i - n) as [|k] eqn:E; [lia|]. simpl. f_equal. lia.
Qed.

Lemma mask_single_nth (n i : nat) :
  i < n + 2 ->
  nth i ([1%Z] ++ repeat 0%Z n ++ [1%Z]) 0%Z
  = if (i =? 0) || (i =? n + 1) then 1%Z else 0%Z.
Proof.
  intros Hi. replace (n + 1) with (S n) by lia.
  destruct i as [|i]; [reflexivity|].
  cbn [app nth orb Nat.eqb]. rewrite nth_zeros_then.
  destruct (Nat.ltb_spec i n), (Nat.eqb_spec i n); try reflexivity; lia.
Qed.

Lemma mask_pair_nth (n m i : nat) :
  i < n + m + 3 ->
  nth i ([1%Z] ++ repeat 0%Z n ++ [1%Z] ++ repeat 0%Z m ++ [1%Z]) 0%Z
  = if (i =? 0) || (i =? n + 1) || (i =? n + m + 2) then 1%Z else 0%Z.
Proof.
  intros Hi. replace (n + 1) with (S n) by lia.
  replace (n + m + 2) with (S (n + S m)) by lia.
  destruct i as [|i]; [reflexivity|].
  cbn [app nth orb Nat.eqb]. rewrite nth_zeros_then.
  destruct (Nat.ltb_spec i n) as [Hlt|Hge].
  - destruct (Nat.eqb_spec i n), (Nat.eqb_spec i (n + S m)); try reflexivity; lia.
  - destruct (Nat.eqb_spec i n) as [->|Hne]; [reflexivity|].
    rewrite nth_zeros_then.
    destruct (Nat.ltb_spec (i - n - 1) m), (Nat.eqb_spec (i - n - 1) m),
             (Nat.eqb_spec i (n + S m)); try reflexivity; lia.
Qed.

(** C6. Without special tokens already in place, the mask has the length
    of the assembled input, 1 at position 0 (where the classifier id goes),
    1 at position len(A)+1 and, for a pair, at the final position (where
    the separator ids go), 0 elsewhere, and is the same for any sequences
    of the same lengths. *)
Theorem special_tokens_mask_layout (self : t) (A B : list token_id) :
  (exists m,
      get_special_tokens_mask self A None false = Return m
      /\ length m = length (build_inputs_with_special_tokens self A None)
      /\ (forall i, i < length m ->
            nth i m 0%Z
            = if (i =? 0) || (i =? length A + 1) then 1%Z else 0%Z)
      /\ nth_error (build_inputs_with_special_tokens self A None) 0
         = Some (cls_token_id self)
      /\ nth_error (build_inputs_with_special_tokens self A None) (length A + 1)
         = Some (sep_token_id self))
  /\ (exists m,
         get_special_tokens_mask self A (Some B) false = Return m
         /\ length m = length (build_inputs_with_special_tokens self A (Some B))
         /\ (forall i, i < length m ->
               nth i m 0%Z
               = if (i =? 0) || (i =? length A + 1)
                    || (i =? length A + length B + 2)
                 then 1%Z else 0%Z)
         /\ nth_error (build_inputs_with_special_tokens self A (Some B)) 0
            = Some (cls_token_id self)
         /\ nth_error (build_inputs_with_special_tokens self A (Some B))
              (length A + 1)
            = Some (sep_token_id self)
         /\ nth_error (build_inputs_with_special_tokens self A (Some B))
              (length A + length B + 2)
            = Some (sep_token_id self))
  /\ (forall (self' : t) (A' B' : list token_id),
         length A' = length A -> length B' = length B ->
         get_special_tokens_mask self' A' None false
         = get_special_tokens_mask self A None false
         /\ get_special_tokens_mask self' A' (Some B') false
            = get_special_tokens_mask self A (Some B) false).
Proof.
  split; [|split].
  - eexists. split; [reflexivity|]. split; [|split; [|split]].
    + unfold build_inputs_with_special_tokens. simpl.
      rewrite !length_app, repeat_length. reflexivity.
    + intros i Hi. apply mask_single_nth.
      rewrite !length_app, repeat_length in Hi. simpl in Hi. lia.
    + reflexivity.
    + unfold build_inputs_with_special_tokens.
      replace (length A + 1) with (S (length A)) by lia. simpl.
      rewrite nth_error_app2 by lia. now rewrite Nat.sub_diag.
  - eexists. split; [reflexivity|]. split; [|split; [|split; [|split]]].
    + unfold build_inputs_with_special_tokens. simpl.
      rewrite !length_app, !repeat_length. simpl.
      rewrite !length_app, !repeat_length. reflexivity.
    + intros i Hi. apply mask_pair_nth.
      rewrite !length_app, !repeat_length in Hi. simpl in Hi. lia.
    + reflexivity.
    + unfold build_inputs_with_special_tokens.
      replace (length A + 1) with (S (length A)) by lia. simpl.
      rewrite nth_error_app2 by lia. now rewrite Nat.sub_diag.
    + unfold build_inputs_with_special_tokens.
      replace (length A + length B + 2) with (S (length A + S (length B))) by lia.
      simpl. rewrite nth_error_app2 by lia.
      replace (length A + S (length B) - length A) with (S (length B)) by lia.
      simpl. rewrite nth_error_app2 by lia. now rewrite Nat.sub_diag.
  - intros self' A' B' HeqA HeqB. simpl. now rewrite HeqA, HeqB.
Qed.

Lemma special_tokens_mask_layout_witness :
  get_special_tokens_mask
    {| unk_token := []; sep_token := []; pad_token := []; cls_token := [];
       mask_token := []; vocab := []; ids_to_tokens := [] |}
    [None; Some 1%Z] (Some [Some 2%Z]) false
  = Return [1; 0; 0; 1; 0; 1]%Z.
Proof.
  transitivity
    (get_special_tokens_mask
       {| unk_token := lit "u"; sep_token := []; pad_token := []; cls_token := [];
          mask_token := []; vocab := [(lit "u", 4%Z)]; ids_to_tokens := [] |}
       [Some 5%Z; Some 7%Z] (Some [Some 6%Z]) false).
  - apply (special_tokens_mask_layout
             {| unk_token := lit "u"; sep_token := []; pad_token := [];
                cls_token := []; mask_token := []; vocab := [(lit "u", 4%Z)];
                ids_to_tokens := [] |}
             [Some 5%Z; Some 7%Z] [Some 6%Z]); reflexivity.
  - reflexivity.
Defined.

Lemma token_id_eqb_eq (a b : token_id) : token_id_eqb a b = true <-> a = b.
Proof.
  destruct a as [x|], b as [y|]; simpl; try (split; [discriminate|congruence]).
  - rewrite Z.eqb_eq. split; congruence.
  - tauto.
Qed.

(** C7. With special tokens already in place, the mask computation
    raises (a [ValueError]) exactly when a second sequence is supplied;
    with none it returns, over A itself, 1 at exactly the positions whose
    id is the separator id or the classifier id and 0 at the others. The
    method is a function of [self] that returns no new instance. *)
Theorem special_tokens_mask_already (self : t) (A : list token_id)
    (B : option (list token_id)) :
  ((exists e, get_special_tokens_mask self A B true = Raise e) <-> B <> None)
  /\ (B <> None -> get_special_tokens_mask self A B true = Raise ValueError)
  /\ (B = None ->
      exists m,
        get_special_tokens_mask self A B true = Return m
        /\ length m = length A
        /\ forall i x, nth_error A i = Some x ->
             (x = sep_token_id self \/ x = cls_token_id self ->
              nth_error m i = Some 1%Z)
             /\ (x <> sep_token_id self /\ x <> cls_token_id self ->
                 nth_error m i = Some 0%Z)).
Proof.
  unfold get_special_tokens_mask. destruct B as [B|].
  - split; [|split].
    + split; [discriminate|]. intros _. now exists ValueError.
    + reflexivity.
    + discriminate.
  - split; [|split].
    + split; [intros [e He]; discriminate|congruence].
    + congruence.
    + intros _. eexists. split; [reflexivity|]. split; [apply length_map|].
      intros i x Hx. rewrite nth_error_map, Hx. simpl.
      split.
      * intros [->| ->].
        -- now rewrite (proj2 (token_id_eqb_eq _ _) eq_refl).
        -- rewrite (proj2 (token_id_eqb_eq (cls_token_id self) _) eq_refl).
           now rewrite orb_true_r.
      * intros [Hs Hc].
        destruct (token_id_eqb x (sep_token_id self)) eqn:E1;
          [apply token_id_eqb_eq in E1; contradiction|].
        destruct (token_id_eqb x (cls_token_id self)) eqn:E2;
          [apply token_id_eqb_eq in E2; contradiction|].
        reflexivity.
Qed.

Lemma special_tokens_mask_already_witness :
  get_special_tokens_mask
    {| unk_token := []; sep_token := lit "s"; pad_token := []; cls_token := lit "c";
       mask_token := []; vocab := [(lit "c", 2%Z); (lit "s", 3%Z)];
       ids_to_tokens := [] |}
    [Some 2%Z; Some 5%Z; Some 3%Z] (Some []) true
  = Raise ValueError.
Proof.
  apply (special_tokens_mask_already
           {| unk_token := []; sep_token := lit "s"; pad_token := [];
              cls_token := lit "c"; mask_token := [];
              vocab := [(lit "c", 2%Z); (lit "s", 3%Z)]; ids_to_tokens := [] |}
           [Some 2%Z; Some 5%Z; Some 3%Z] (Some [])).
  discriminate.
Defined.

(* ================================================================== *)
(** * Construction                                                      *)
(* ================================================================== *)

(** C1, as stated, fails: a readable vocabulary file that holds none of
    the special tokens still yields a tokenizer. *)
Lemma construction_unchecked :
  ~ construction_must_fail bare_fs (lit "vocab.txt") (lit "[UNK]") (lit "[SEP]")
      (lit "[PAD]") (lit "[CLS]") (lit "[MASK]").
Proof.
  intros Hclaim. destruct Hclaim as [e He].
  - right. left. intros vocab Hload. vm_compute in Hload.
    injection Hload as <-. reflexivity.
  - vm_compute in He. discriminate He.
Qed.

(** C1, amended. Construction raises, and returns no tokenizer, when the
    vocabulary path is not a regular file ([ValueError]) or the file cannot
    be read: [OSError] when it cannot be opened, [UnicodeDecodeError] when
    it opens and its bytes are not UTF-8. Whenever the file can be read
    construction returns a tokenizer holding the five special-token
    strings, the loaded vocabulary and the reverse map derived from it,
    whether or not the vocabulary holds the special tokens. *)
Theorem construction_outcome (fs : filesystem)
    (vocab_file unk sep pad cls mask : str) :
  (isfile fs vocab_file = false ->
   __init__ fs vocab_file unk sep pad cls mask = Raise ValueError)
  /\ (stat fs vocab_file = Some Unopenable ->
      __init__ fs vocab_file unk sep pad cls mask = Raise OSError)
  /\ (isfile fs vocab_file = true ->
      stat fs vocab_file <> Some Unopenable ->
      file_text fs vocab_file = None ->
      __init__ fs vocab_file unk sep pad cls mask = Raise UnicodeDecodeError)
  /\ (forall text, file_text fs vocab_file = Some text ->
      let vocab := load_vocab_lines (readlines (translate_newlines text)) in
      __init__ fs vocab_file unk sep pad cls mask
      = Return {| unk_token := unk; sep_token := sep; pad_token := pad;
                  cls_token := cls; mask_token := mask;
                  vocab := vocab;
                  ids_to_tokens :=
                    od_of_list (map (fun kv => (snd kv, fst kv)) (od_items vocab)) |}).
Proof.
  unfold __init__, load_vocab, read_text, isfile, file_text, stat.
  destruct (path_error vocab_file);
    [repeat split; try discriminate; intros text; discriminate|].
  split; [|split; [|split]].
  - destruct (fs vocab_file) as [[| | |text|text]|]; simpl;
      try discriminate; reflexivity.
  - intros ->. reflexivity.
  - destruct (fs vocab_file) as [[| | |text|text]|]; simpl;
      try discriminate; try reflexivity.
    + intros _ Habs. now contradiction Habs.
    + destruct (forallb scalar_value text); [discriminate|reflexivity].
    + destruct (forallb scalar_value text); [discriminate|reflexivity].
  - intros text. destruct (fs vocab_file) as [[| | |text'|text']|];
      try discriminate.
    all: destruct (forallb scalar_value text') eqn:E; [|discriminate].
    all: intros Heq; injection Heq as <-; simpl; reflexivity.
Qed.

Lemma construction_outcome_witness :
  __init__ bare_fs (lit "missing.txt") (lit "[UNK]") (lit "[SEP]") (lit "[PAD]")
    (lit "[CLS]") (lit "[MASK]") = Raise ValueError
  /\ __init__ guarded_fs (lit "locked.txt") (lit "[UNK]") (lit "[SEP]") (lit "[PAD]")
       (lit "[CLS]") (lit "[MASK]") = Raise OSError
  /\ __init__ guarded_fs (lit "binary.txt") (lit "[UNK]") (lit "[SEP]") (lit "[PAD]")
       (lit "[CLS]") (lit "[MASK]") = Raise UnicodeDecodeError
  /\ exists tk,
       __init__ bare_fs (lit "vocab.txt") (lit "[UNK]") (lit "[SEP]") (lit "[PAD]")
         (lit "[CLS]") (lit "[MASK]") = Return tk
       /\ od_get (lit "[UNK]") (vocab tk) = None.
Proof.
  split; [|split; [|split]].
  - apply (construction_outcome bare_fs (lit "missing.txt")). reflexivity.
  - apply (construction_outcome guarded_fs (lit "locked.txt")). reflexivity.
  - apply (construction_outcome guarded_fs (lit "binary.txt"));
      [reflexivity|discriminate|reflexivity].
  - eexists. split.
    + exact (proj2 (proj2 (proj2 (construction_outcome bare_fs (lit "vocab.txt")
               (lit "[UNK]") (lit "[SEP]") (lit "[PAD]") (lit "[CLS]") (lit "[MASK]"))))
               (lit "a" ++ [LF] ++ lit "b" ++ [LF]) eq_refl).
    + reflexivity.
Defined.

(* ================================================================== *)
(** * Vocabulary store: duplicate lines                                 *)
(* ================================================================== *)

(** C3. When the same token stands on lines [i] and [j], [i < j], and on
    no line after [j], the forward map gives the token the id [j], no token
    keeps the id [i], and the reverse map has the token at [j] and nothing
    at [i]. *)
Theorem duplicate_token_last_wins (fs : filesystem)
    (vocab_file unk sep pad cls mask : str) (tk : t) (text : str)
    (i j : nat) (tok : str) :
  __init__ fs vocab_file unk sep pad cls mask = Return tk ->
  file_text fs vocab_file = Some text ->
  i < j ->
  nth_error (line_tokens (readlines (translate_newlines text))) i = Some tok ->
  last_line (line_tokens (readlines (translate_newlines text))) tok j ->
  load_vocab fs vocab_file = Return (vocab tk)
  /\ od_get tok (vocab tk) = Some (Z.of_nat j)
  /\ (forall tok', od_get tok' (vocab tk) <> Some (Z.of_nat i))
  /\ od_get (Z.of_nat j) (ids_to_tokens tk) = Some tok
  /\ od_get (Z.of_nat i) (ids_to_tokens tk) = None.
Proof.
  intros Hinit Htext Hij Hi Hj.
  pose proof (init_in_sync _ _ _ _ _ _ _ _ Hinit) as Hsync.
  destruct (init_inv _ _ _ _ _ _ _ _ Hinit) as (text' & Htext' & Hv & _).
  rewrite Htext in Htext'. injection Htext' as <-.
  assert (Hget : od_get tok (vocab tk) = Some (Z.of_nat j)).
  { rewrite Hv. apply load_vocab_lines_get. now exists j. }
  assert (Hnone : forall tok', od_get tok' (vocab tk) <> Some (Z.of_nat i)).
  { intros tok' Hget'. rewrite Hv in Hget'.
    apply load_vocab_lines_get in Hget' as (k & Hk & Hnth & Hlast).
    apply Nat2Z.inj in Hk. subst k.
    assert (tok' = tok) by congruence. subst tok'.
    destruct Hj as [Hj _]. exact (Hlast j Hij Hj). }
  split; [|split; [exact Hget|split; [exact Hnone|split]]].
  - unfold load_vocab.
    rewrite (proj2 (read_text_Return fs vocab_file (translate_newlines text))
               (ex_intro _ text (conj Htext eq_refl))).
    simpl. now rewrite Hv.
  - now apply Hsync.
  - destruct (od_get (Z.of_nat i) (ids_to_tokens tk)) as [tok'|] eqn:E;
      [|reflexivity].
    apply Hsync in E. now apply Hnone in E.
Qed.

Lemma duplicate_token_last_wins_witness :
  exists tk,
    __init__ repeated_fs (lit "vocab.txt") (lit "[UNK]") (lit "[SEP]") (lit "[PAD]")
      (lit "[CLS]") (lit "[MASK]") = Return tk
    /\ od_get (lit "a") (vocab tk) = Some 2%Z
    /\ od_get 2%Z (ids_to_tokens tk) = Some (lit "a")
    /\ od_get 0%Z (ids_to_tokens tk) = None.
Proof.
  assert (Hinit : exists tk,
             __init__ repeated_fs (lit "vocab.txt") (lit "[UNK]") (lit "[SEP]")
               (lit "[PAD]") (lit "[CLS]") (lit "[MASK]") = Return tk)
    by (eexists; reflexivity).
  destruct Hinit as [tk Hinit]. exists tk. split; [exact Hinit|].
  assert (Hlast : last_line
                    (line_tokens
                       (readlines
                          (translate_newlines
                             (lit "a" ++ [LF] ++ lit "b" ++ [LF] ++ lit "a" ++ [LF]))))
                    (lit "a") 2).
  { split; [reflexivity|]. intros [|[|[|[|k]]]] Hk; try lia; discriminate. }
  destruct (duplicate_token_last_wins repeated_fs (lit "vocab.txt")
              (lit "[UNK]") (lit "[SEP]") (lit "[PAD]") (lit "[CLS]")
              (lit "[MASK]") tk
              (lit "a" ++ [LF] ++ lit "b" ++ [LF] ++ lit "a" ++ [LF])
              0 2 (lit "a") Hinit eq_refl (Nat.lt_0_succ 1) eq_refl Hlast)
    as (_ & H1 & _ & H3 & H4).
  repeat split; assumption.
Defined.

(* ================================================================== *)
(** * Token codec                                                       *)
(* ================================================================== *)

(** C5. For a constructed tokenizer, converting tokens to ids and back
    returns each token that is in the vocabulary and the unknown-token
    string for each token that is not; a sequence of tokens all in the
    vocabulary comes back as it is. Both lookups are total: a token that is
    absent gets the unknown token's id, an id that is absent (or [None])
    gets the unknown-token string. *)
Theorem codec_round_trip (fs : filesystem)
    (vocab_file unk sep pad cls mask : str) (tk : t) (X : list str) :
  __init__ fs vocab_file unk sep pad cls mask = Return tk ->
  map (_convert_id_to_token tk) (map (_convert_token_to_id tk) X)
  = map (fun tok => match od_get tok (vocab tk) with
                    | Some _ => tok
                    | None => unk_token tk
                    end) X
  /\ (Forall (in_vocab tk) X ->
      map (_convert_id_to_token tk) (map (_convert_token_to_id tk) X) = X)
  /\ (forall tok, od_get tok (vocab tk) = None ->
      _convert_token_to_id tk tok = od_get (unk_token tk) (vocab tk)
      /\ _convert_id_to_token tk (_convert_token_to_id tk tok) = unk_token tk)
  /\ (forall i, od_get i (ids_to_tokens tk) = None ->
      _convert_id_to_token tk (Some i) = unk_token tk)
  /\ _convert_id_to_token tk None = unk_token tk.
Proof.
  intros Hinit. pose proof (init_in_sync _ _ _ _ _ _ _ _ Hinit) as Hsync.
  assert (Hone : forall tok,
             _convert_id_to_token tk (_convert_token_to_id tk tok)
             = match od_get tok (vocab tk) with
               | Some _ => tok
               | None => unk_token tk
               end).
  { intros tok. unfold _convert_token_to_id, _convert_id_to_token.
    destruct (od_get tok (vocab tk)) as [i|] eqn:E.
    - apply Hsync in E. now rewrite E.
    - destruct (od_get (unk_token tk) (vocab tk)) as [u|] eqn:Eu; [|reflexivity].
      apply Hsync in Eu. now rewrite Eu. }
  assert (Hall : map (_convert_id_to_token tk) (map (_convert_token_to_id tk) X)
                 = map (fun tok => match od_get tok (vocab tk) with
                                   | Some _ => tok
                                   | None => unk_token tk
                                   end) X).
  { rewrite map_map. apply map_ext. exact Hone. }
  split; [exact Hall|split; [|split; [|split]]].
  - intros HX. rewrite Hall. rewrite <- (map_id X) at 2.
    apply map_ext_in. intros tok Hin.
    rewrite Forall_forall in HX. specialize (HX tok Hin). unfold in_vocab in HX.
    now destruct (od_get tok (vocab tk)).
  - intros tok Habs. split.
    + unfold _convert_token_to_id. now rewrite Habs.
    + now rewrite Hone, Habs.
  - intros i Hi. unfold _convert_id_to_token. now rewrite Hi.
  - reflexivity.
Qed.

Lemma codec_round_trip_witness :
  exists tk,
    default_init example_fs (lit "vocab.txt") = Return tk
    /\ map (_convert_id_to_token tk)
         (map (_convert_token_to_id tk) [[GA]; [SPACE]; lit "x"; [NA]])
       = [[GA]; [SPACE]; lit "[UNK]"; [NA]]
    /\ map (_convert_id_to_token tk)
         (map (_convert_token_to_id tk) [[GA]; [SPACE]; [NA]])
       = [[GA]; [SPACE]; [NA]].
Proof.
  assert (Hinit : exists tk, default_init example_fs (lit "vocab.txt") = Return tk)
    by (eexists; reflexivity).
  destruct Hinit as [tk Hinit]. exists tk. split; [exact Hinit|].
  assert (Hv : vocab tk
               = load_vocab_lines (readlines (translate_newlines example_vocab_text))).
  { vm_compute in Hinit. injection Hinit as <-. reflexivity. }
  assert (Hu : unk_token tk = lit "[UNK]").
  { vm_compute in Hinit. injection Hinit as <-. reflexivity. }
  split.
  - rewrite (proj1 (codec_round_trip example_fs (lit "vocab.txt")
                      (lit "[UNK]") (lit "[SEP]") (lit "[PAD]") (lit "[CLS]")
                      (lit "[MASK]") tk [[GA]; [SPACE]; lit "x"; [NA]] Hinit)).
    rewrite Hv, Hu. reflexivity.
  - apply (codec_round_trip example_fs (lit "vocab.txt")
             (lit "[UNK]") (lit "[SEP]") (lit "[PAD]") (lit "[CLS]")
             (lit "[MASK]") tk [[GA]; [SPACE]; [NA]] Hinit).
    unfold in_vocab. rewrite Hv. repeat constructor; discriminate.
Defined.

(* ================================================================== *)
(** * Character segmenter                                               *)
(* ================================================================== *)

Lemma whitespace_tokenize_split (text : str) :
  whitespace_tokenize text = split text.
Proof.
  unfold whitespace_tokenize. rewrite <- (split_strip text).
  now destruct (strip text).
Qed.

Lemma chars_clean_no_space (w : str) :
  clean w = true -> ~ In [SPACE] (chars w).
Proof.
  unfold chars. intros Hw Hin. apply in_map_iff in Hin as (c & Hc & Hin).
  injection Hc as ->. unfold clean in Hw. rewrite forallb_forall in Hw.
  specialize (Hw _ Hin). discriminate.
Qed.

(** C9. The segmenter returns the one-character strings of the text
    split on whitespace and rejoined with single spaces, which is the text
    with its whitespace runs collapsed and its ends stripped: a blank text
    gives no token, a single word gives its characters and no space token,
    and a word followed by a gap of whitespace and more words gives the
    characters of the word, one space token, and the tokens of the rest. *)
Theorem segmenter_characters (self : t) (text : str) :
  _tokenize self text = chars (join [SPACE] (whitespace_tokenize text))
  /\ _tokenize self text = chars (normalized text)
  /\ (forallb isspace text = true -> _tokenize self text = [])
  /\ (word text ->
      _tokenize self text = chars text /\ ~ In [SPACE] (_tokenize self text))
  /\ (forall w gap rest,
        text = w ++ gap ++ rest ->
        word w -> gap <> [] -> forallb isspace gap = true -> split rest <> [] ->
        _tokenize self text = chars w ++ [SPACE] :: _tokenize self rest).
Proof.
  unfold _tokenize. split; [|split; [|split; [|split]]].
  - now rewrite whitespace_tokenize_split.
  - now rewrite join_split_normalized.
  - intros Hblank. now rewrite split_blank.
  - intros Hw. rewrite (split_single_word _ Hw). simpl.
    split; [reflexivity|]. apply chars_clean_no_space, Hw.
  - intros w gap rest -> Hw Hgap Hblank Hrest.
    destruct gap as [|c gap']; [congruence|].
    simpl in Hblank. apply andb_true_iff in Hblank as [Hc Hgap'].
    change (w ++ (c :: gap') ++ rest) with (w ++ c :: (gap' ++ rest)).
    rewrite (split_word_then w _ c Hw Hc), (split_blank_prefix _ _ Hgap').
    rewrite (join_cons _ _ _ Hrest). unfold chars. rewrite map_app. reflexivity.
Qed.

Lemma segmenter_characters_witness :
  _tokenize
    {| unk_token := []; sep_token := []; pad_token := []; cls_token := [];
       mask_token := []; vocab := []; ids_to_tokens := [] |}
    [GA; NA; SPACE; LF; NA]
  = [[GA]; [NA]; [SPACE]; [NA]]
  /\ _tokenize
       {| unk_token := []; sep_token := []; pad_token := []; cls_token := [];
          mask_token := []; vocab := []; ids_to_tokens := [] |}
       [SPACE; LF]
     = []
  /\ _tokenize
       {| unk_token := []; sep_token := []; pad_token := []; cls_token := [];
          mask_token := []; vocab := []; ids_to_tokens := [] |}
       [GA; NA]
     = [[GA]; [NA]].
Proof.
  split; [|split].
  - apply (proj2 (proj2 (proj2 (proj2
             (segmenter_characters
                {| unk_token := []; sep_token := []; pad_token := [];
                   cls_token := []; mask_token := []; vocab := [];
                   ids_to_tokens := [] |}
                [GA; NA; SPACE; LF; NA]))))
             [GA; NA] [SPACE; LF] [NA]).
    + reflexivity.
    + split; [discriminate|reflexivity].
    + discriminate.
    + reflexivity.
    + discriminate.
  - apply (segmenter_characters
             {| unk_token := []; sep_token := []; pad_token := [];
                cls_token := []; mask_token := []; vocab := [];
                ids_to_tokens := [] |}
             [SPACE; LF]).
    reflexivity.
  - apply (segmenter_characters
             {| unk_token := []; sep_token := []; pad_token := [];
                cls_token := []; mask_token := []; vocab := [];
                ids_to_tokens := [] |}
             [GA; NA]).
    split; [discriminate|reflexivity].
Defined.

(* ================================================================== *)
(** * Decoding an encoding                                              *)
(* ================================================================== *)

(** C2. For a constructed tokenizer and every text T whose normalized
    form (whitespace runs collapsed to one space, ends stripped) has all
    its characters in the vocabulary, detokenizing the tokens of the ids of
    the segments of T gives that normalized form. *)
Theorem decode_encode_normalizes (fs : filesystem)
    (vocab_file unk sep pad cls mask : str) (tk : t) (T : str) :
  __init__ fs vocab_file unk sep pad cls mask = Return tk ->
  Forall (fun c => in_vocab tk [c]) (normalized T) ->
  convert_tokens_to_string tk
    (map (_convert_id_to_token tk)
       (map (_convert_token_to_id tk) (_tokenize tk T)))
  = normalized T.
Proof.
  intros Hinit Hvoc.
  pose proof (init_in_sync _ _ _ _ _ _ _ _ Hinit) as Hsync.
  unfold convert_tokens_to_string, _tokenize.
  rewrite join_split_normalized.
  assert (Hback : map (_convert_id_to_token tk)
                    (map (_convert_token_to_id tk) (chars (normalized T)))
                  = chars (normalized T)).
  { rewrite map_map. rewrite <- (map_id (chars (normalized T))) at 2.
    apply map_ext_in. intros tok Hin. unfold chars in Hin.
    apply in_map_iff in Hin as (c & <- & Hc).
    rewrite Forall_forall in Hvoc. specialize (Hvoc c Hc). unfold in_vocab in Hvoc.
    unfold _convert_token_to_id, _convert_id_to_token. cbv beta.
    destruct (@od_get str Z _ [c] (vocab tk)) as [i|] eqn:E; [|congruence].
    apply Hsync in E. now rewrite E. }
  rewrite Hback, concat_chars. apply strip_normalized.
Qed.

Lemma decode_encode_normalizes_witness :
  exists tk,
    default_init example_fs (lit "vocab.txt") = Return tk
    /\ decode tk (encode tk [LF; GA; SPACE; SPACE; NA; SPACE]) = [GA; SPACE; NA].
Proof.
  assert (Hinit : exists tk, default_init example_fs (lit "vocab.txt") = Return tk)
    by (eexists; reflexivity).
  destruct Hinit as [tk Hinit]. exists tk. split; [exact Hinit|].
  assert (Hv : vocab tk
               = load_vocab_lines (readlines (translate_newlines example_vocab_text))).
  { vm_compute in Hinit. injection Hinit as <-. reflexivity. }
  unfold decode, encode.
  rewrite (decode_encode_normalizes example_fs (lit "vocab.txt")
             (lit "[UNK]") (lit "[SEP]") (lit "[PAD]") (lit "[CLS]")
             (lit "[MASK]") tk [LF; GA; SPACE; SPACE; NA; SPACE] Hinit).
  - reflexivity.
  - unfold in_vocab. rewrite Hv. repeat constructor; discriminate.
Defined.

(* ================================================================== *)
(** * Vocabulary store: save_vocabulary                                 *)
(* ================================================================== *)

Section SortedFacts.
Context {A : Type} (key : A -> Z).

Lemma insert_by_perm (x : A) (l : list A) :
  Permutation (insert_by key x l) (x :: l).
Proof.
  induction l as [|y r IH]; simpl; [reflexivity|].
  destruct (key x <=? key y)%Z; [reflexivity|].
  rewrite IH. apply perm_swap.
Qed.

Lemma sorted_perm (l : list A) : Permutation (sorted key l) l.
Proof.
  induction l as [|x r IH]; simpl; [reflexivity|].
  rewrite insert_by_perm. now constructor.
Qed.

Lemma sorted_length (l : list A) : length (sorted key l) = length l.
Proof. apply Permutation_length, sorted_perm. Qed.

Lemma insert_by_ascending (x : A) (l : list A) :
  StronglySorted (fun a b => (key a <= key b)%Z) l ->
  StronglySorted (fun a b => (key a <= key b)%Z) (insert_by key x l).
Proof.
  induction 1 as [|y r Hr IH Hy]; simpl.
  - constructor; constructor.
  - destruct (Z.leb_spec (key x) (key y)) as [Hle|Hgt].
    + constructor; [now constructor|]. constructor; [exact Hle|].
      rewrite Forall_forall in *. intros z Hz. specialize (Hy z Hz). lia.
    + constructor; [exact IH|].
      rewrite Forall_forall in *. intros z Hz.
      apply (Permutation_in _ (insert_by_perm x r)) in Hz.
      destruct Hz as [<-|Hz]; [lia|now apply Hy].
Qed.

Lemma sorted_ascending (l : list A) :
  StronglySorted (fun a b => (key a <= key b)%Z) (sorted key l).
Proof.
  induction l as [|x r IH]; simpl; [constructor|].
  now apply insert_by_ascending.
Qed.

Lemma sorted_consecutive (l : list A) (i : Z) :
  consecutive_from i (map key l) -> sorted key l = l.
Proof.
  revert i. induction l as [|x r IH]; intros i; simpl; [reflexivity|].
  intros [Hx Hr]. rewrite (IH _ Hr).
  destruct r as [|y r']; [reflexivity|].
  simpl in Hr. destruct Hr as [Hy _]. simpl.
  destruct (Z.leb_spec (key x) (key y)); [reflexivity|lia].
Qed.

End SortedFacts.

Lemma consecutive_from_seq (l : list Z) (a : nat) :
  consecutive_from (Z.of_nat a) l <-> l = map Z.of_nat (seq a (length l)).
Proof.
  revert a. induction l as [|x r IH]; intros a; simpl; [tauto|].
  replace (Z.of_nat a + 1)%Z with (Z.of_nat (S a)) by lia.
  rewrite IH. split.
  - intros [-> Hr]. now rewrite <- Hr.
  - intros Heq. injection Heq as Hx Hr. now split.
Qed.

Lemma ids_contiguous_consecutive (d : OrderedDict str Z) :
  ids_contiguous d
  <-> consecutive_from 0 (map snd (sorted (fun kv : str * Z => snd kv) d)).
Proof.
  unfold ids_contiguous. rewrite (consecutive_from_seq _ 0).
  now rewrite length_map, sorted_length.
Qed.

Lemma scalar_line (tok : str) :
  forallb scalar_value (tok ++ [LF]) = encodable tok.
Proof.
  unfold encodable. rewrite forallb_app. simpl. apply andb_true_r.
Qed.

(** The loop over tokens that can all be encoded runs to its end. *)
Lemma write_items_encodable (vocab_file : str) (items : list (str * Z))
    (st : writer_state) :
  Forall (fun kv => encodable (fst kv) = true) items ->
  snd (write_items vocab_file items st) = Return tt
  /\ written (fst (write_items vocab_file items st))
     = written st ++ concat (map (fun kv => fst kv ++ [LF]) items)
  /\ exists extra,
       logged (fst (write_items vocab_file items st)) = logged st ++ extra
       /\ (extra = [] <-> consecutive_from (index st) (map snd items)).
Proof.
  intros Hall. revert st.
  induction Hall as [|[token token_index] rest Htok Hrest IH]; intros st.
  - simpl. split; [reflexivity|split; [now rewrite app_nil_r|]].
    exists []. rewrite app_nil_r. tauto.
  - simpl in Htok. cbn [write_items]. rewrite scalar_line, Htok.
    match goal with
    | |- context [write_items vocab_file rest ?st1] =>
        destruct (IH st1) as (Hret & Hw & extra & Hl & Hx)
    end.
    cbn [index written logged] in Hw, Hl, Hx.
    split; [exact Hret|split].
    + rewrite Hw. cbn [map concat fst]. now rewrite <- !app_assoc.
    + cbn [map snd]. cbn [consecutive_from].
      destruct (Z.eqb_spec (index st) token_index) as [Heq|Hne];
        cbn [negb] in *.
      * exists extra. split; [exact Hl|]. rewrite Hx, Heq. split.
        -- intros Hr. split; [reflexivity|exact Hr].
        -- intros [_ Hr]. exact Hr.
      * exists (IndicesNotConsecutive vocab_file :: extra). split.
        -- rewrite Hl. now rewrite <- app_assoc.
        -- split; [discriminate|]. intros [Heq _]. now elim Hne.
Qed.

Lemma written_scalar (items : list (str * Z)) :
  Forall (fun kv => encodable (fst kv) = true) items ->
  forallb scalar_value (concat (map (fun kv => fst kv ++ [LF]) items)) = true.
Proof.
  induction 1 as [|kv rest Htok Hrest IH]; [reflexivity|].
  cbn [map concat]. rewrite forallb_app, scalar_line.
  apply andb_true_iff. split; [exact Htok|exact IH].
Qed.

Lemma str_eqb_refl (a : str) : str_eqb a a = true.
Proof. now apply str_eqb_eq. Qed.

Lemma file_text_written (fs : filesystem) (p text : str) :
  path_error p = None ->
  forallb scalar_value text = true ->
  file_text (write_text fs p text) p = Some text.
Proof.
  intros Hp Htext. unfold file_text, stat, write_text.
  now rewrite Hp, str_eqb_refl, Htext.
Qed.

Lemma open_for_writing_path (fs : filesystem) (p : str) :
  open_for_writing fs p = Return tt -> path_error p = None.
Proof.
  unfold open_for_writing. now destruct (path_error p).
Qed.

Lemma translate_newlines_none (s : str) :
  no_carriage_return s = true -> translate_newlines s = s.
Proof.
  induction s as [|c r IH]; simpl; [reflexivity|].
  rewrite andb_true_iff, negb_true_iff. intros [-> Hr]. now rewrite (IH Hr).
Qed.

Lemma readlines_nil (s : str) : readlines s = [] -> s = [].
Proof.
  destruct s as [|c r]; [reflexivity|]. simpl.
  destruct (c =? LF)%N; [discriminate|].
  destruct (readlines r); discriminate.
Qed.

Lemma readlines_concat (s : str) : concat (readlines s) = s.
Proof.
  induction s as [|c r IH]; simpl; [reflexivity|].
  destruct (c =? LF)%N; simpl; [now rewrite IH|].
  destruct (readlines r) as [|l ls] eqn:E.
  - apply readlines_nil in E. now subst r.
  - simpl in *. now rewrite IH.
Qed.

Lemma readlines_terminated (s : str) :
  newline_terminated s = true ->
  Forall (fun l => rstrip_chars [LF] l ++ [LF] = l) (readlines s).
Proof.
  induction s as [|c r IH]; [constructor|].
  intros Hterm.
  assert (Hr : r <> [] -> newline_terminated r = true).
  { intros Hne. simpl in Hterm. destruct r; [congruence|exact Hterm]. }
  simpl readlines. destruct (c =? LF)%N eqn:Hc.
  - apply N.eqb_eq in Hc. subst c. constructor; [reflexivity|].
    destruct r as [|c' r']; [constructor|]. apply IH, Hr. discriminate.
  - destruct r as [|c' r'].
    + simpl in Hterm. congruence.
    + specialize (IH (Hr ltac:(discriminate))).
      destruct (readlines (c' :: r')) as [|l ls] eqn:E.
      * apply readlines_nil in E. discriminate.
      * inversion IH as [|? ? Hl Hls]; subst. constructor; [|exact Hls].
        unfold rstrip_chars in *. simpl rstrip_if.
        destruct (rstrip_if (in_chars [LF]) l) as [|x l'] eqn:El.
        -- rewrite Hc. simpl. now rewrite <- Hl.
        -- now rewrite <- Hl.
Qed.

(** When the ids of a loaded vocabulary are contiguous from 0, no line
    overwrote another: the vocabulary is the list of the lines' tokens with
    their line indices. *)
Lemma contiguous_load (lines : list str) :
  ids_contiguous (load_vocab_lines lines) ->
  load_vocab_lines lines = vocab_entries lines.
Proof.
  intros Hcont.
  assert (Hlen : length (load_vocab_lines lines) = length (vocab_entries lines)).
  { apply Nat.le_antisymm.
    - rewrite load_vocab_lines_of_list. apply (od_fold_length (vocab_entries lines) []).
    - unfold vocab_entries. rewrite vocab_entries_from_length.
      destruct (length lines) as [|n] eqn:En; [lia|].
      destruct (nth_error (line_tokens lines) n) as [tok|] eqn:Etok.
      + assert (Hget : od_get tok (load_vocab_lines lines) = Some (Z.of_nat n)).
        { apply load_vocab_lines_get. exists n. split; [reflexivity|].
          split; [exact Etok|]. intros k Hk Hnth.
          assert (Hlt : k < length (line_tokens lines))
            by (apply nth_error_Some; congruence).
          unfold line_tokens in Hlt. rewrite length_map in Hlt. lia. }
        apply od_get_In in Hget. apply (in_map snd) in Hget. simpl in Hget.
        apply (Permutation_in _
                 (Permutation_map snd
                    (Permutation_sym
                       (sorted_perm (fun kv : str * Z => snd kv)
                          (load_vocab_lines lines))))) in Hget.
        unfold ids_contiguous in Hcont. rewrite Hcont in Hget.
        apply in_map_iff in Hget as (k & Hk & Hin). apply in_seq in Hin. lia.
      + apply nth_error_None in Etok. unfold line_tokens in Etok.
        rewrite length_map in Etok. lia. }
  rewrite load_vocab_lines_of_list in *. unfold od_of_list in *.
  destruct (od_fold_full (vocab_entries lines) [] Hlen) as [Hnd Hfresh].
  now rewrite (od_fold_fresh _ [] Hnd Hfresh).
Qed.

Lemma rstrip_if_incl (p : char -> bool) (s : str) (c : char) :
  In c (rstrip_if p s) -> In c s.
Proof.
  induction s as [|x r IH]; simpl; [tauto|].
  destruct (rstrip_if p r) as [|y r'].
  - destruct (p x); simpl; tauto.
  - intros [->|Hin]; [now left|]. right. now apply IH.
Qed.

Lemma translate_newlines_incl (s : str) (c : char) :
  In c (translate_newlines s) -> c = LF \/ In c s.
Proof.
  induction s as [|x r IH]; [contradiction|].
  simpl translate_newlines. destruct (x =? CR)%N.
  - destruct r as [|x' r']; [intros [<-|[]]; now left|].
    destruct (x' =? LF)%N.
    + intros Hin. apply IH in Hin. simpl in *. tauto.
    + intros [<-|Hin]; [now left|]. apply IH in Hin. simpl in *. tauto.
  - intros [<-|Hin]; [right; now left|]. apply IH in Hin. simpl. tauto.
Qed.

(** A token of a vocabulary loaded from a file that decodes can be
    encoded again. *)
Lemma loaded_tokens_encodable (text : str) :
  forallb scalar_value text = true ->
  Forall (fun kv => encodable (fst kv) = true)
    (load_vocab_lines (readlines (translate_newlines text))).
Proof.
  intros Htext. apply Forall_forall. intros [tok i] Hin. simpl.
  apply od_In_get in Hin; [|apply load_vocab_lines_NoDup].
  apply load_vocab_lines_get in Hin as (j & _ & Hj & _).
  apply nth_error_In in Hj. unfold line_tokens in Hj.
  apply in_map_iff in Hj as (l & <- & Hl).
  unfold encodable. rewrite forallb_forall in *. intros c Hc.
  unfold rstrip_chars in Hc. apply rstrip_if_incl in Hc.
  assert (Hin : In c (translate_newlines text)).
  { rewrite <- (readlines_concat (translate_newlines text)).
    apply in_concat. now exists l. }
  apply translate_newlines_incl in Hin as [->|Hin]; [reflexivity|].
  now apply Htext.
Qed.

(** [save_vocabulary] when the file cannot be opened: nothing is written
    or logged and the error of the open is raised. *)
Lemma save_unopened (fs : filesystem) (self : t) (vocab_path : str) (e : exn) :
  open_for_writing fs (save_target fs vocab_path) = Raise e ->
  save_vocabulary fs self vocab_path
  = {| saved_fs := fs; saved_log := []; saved_return := Raise e |}.
Proof.
  unfold save_vocabulary, save_target. now intros ->.
Qed.

(** [save_vocabulary] when the file can be opened and every token can be
    encoded. *)
Lemma save_opened (fs : filesystem) (self : t) (vocab_path : str) :
  open_for_writing fs (save_target fs vocab_path) = Return tt ->
  Forall (fun kv => encodable (fst kv) = true) (vocab self) ->
  saved_return (save_vocabulary fs self vocab_path)
  = Return [save_target fs vocab_path]
  /\ file_text (saved_fs (save_vocabulary fs self vocab_path))
       (save_target fs vocab_path)
     = Some (concat (map (fun kv => fst kv ++ [LF])
                       (sorted (fun kv : str * Z => snd kv)
                          (od_items (vocab self)))))
  /\ (saved_log (save_vocabulary fs self vocab_path) = []
      <-> ids_contiguous (vocab self)).
Proof.
  intros Hopen Hall.
  assert (Hitems : Forall (fun kv => encodable (fst kv) = true)
                     (sorted (fun kv : str * Z => snd kv) (od_items (vocab self)))).
  { rewrite Forall_forall in *. intros kv Hin. apply Hall.
    eapply Permutation_in; [apply sorted_perm|exact Hin]. }
  unfold save_vocabulary, save_target in *. rewrite Hopen.
  match goal with
  | |- context [write_items ?f ?items ?st] =>
      destruct (write_items_encodable f items st Hitems)
        as (Hret & Hw & extra & Hl & Hx)
  end.
  cbn [saved_return saved_fs saved_log]. cbn [index written logged] in Hw, Hl, Hx.
  split; [now rewrite Hret|split].
  - rewrite Hw. apply file_text_written.
    + eapply open_for_writing_path. exact Hopen.
    + simpl. now apply written_scalar.
  - rewrite Hl, ids_contiguous_consecutive. exact Hx.
Qed.

(** C4, as stated, fails. A vocabulary file whose last line has no line
    feed loads with contiguous ids, and saving writes a line feed after
    every token, the last one included; a file with CR LF line ends is read
    back without its carriage returns; and when the target cannot be opened
    for writing nothing is written, logged or returned, whatever the ids,
    as when a token cannot be encoded. *)
Lemma save_appends_newline :
  ~ save_reproduces unterminated_fs (lit "vocab.txt") (lit "saved.txt")
  /\ ~ save_reproduces crlf_fs (lit "vocab.txt") (lit "saved.txt")
  /\ ~ save_reproduces bare_fs (lit "vocab.txt") (lit "nodir/saved.txt")
  /\ ~ save_warns_and_writes bare_fs gapped_tokenizer (lit "nodir/saved.txt")
  /\ ~ save_warns_and_writes bare_fs surrogate_tokenizer (lit "saved.txt").
Proof.
  split; [|split; [|split; [|split]]].
  - intros Hclaim.
    assert (Hrun : exists tk,
               default_init unterminated_fs (lit "vocab.txt") = Return tk
               /\ ids_contiguous (vocab tk)
               /\ saved_return (save_vocabulary unterminated_fs tk (lit "saved.txt"))
                  = Return [lit "saved.txt"]
               /\ file_text
                    (saved_fs (save_vocabulary unterminated_fs tk (lit "saved.txt")))
                    (lit "saved.txt")
                  = Some (lit "a" ++ [LF] ++ lit "b" ++ [LF])).
    { eexists. repeat split; reflexivity. }
    destruct Hrun as (tk & Hinit & Hcont & Hret & Hfile).
    destruct (Hclaim tk _ Hinit eq_refl Hcont) as (target & Htarget & Htext).
    rewrite Hret in Htarget. injection Htarget as <-.
    rewrite Hfile in Htext. discriminate Htext.
  - intros Hclaim.
    assert (Hrun : exists tk,
               default_init crlf_fs (lit "vocab.txt") = Return tk
               /\ ids_contiguous (vocab tk)
               /\ saved_return (save_vocabulary crlf_fs tk (lit "saved.txt"))
                  = Return [lit "saved.txt"]
               /\ file_text
                    (saved_fs (save_vocabulary crlf_fs tk (lit "saved.txt")))
                    (lit "saved.txt")
                  = Some (lit "a" ++ [LF] ++ lit "b" ++ [LF])).
    { eexists. repeat split; reflexivity. }
    destruct Hrun as (tk & Hinit & Hcont & Hret & Hfile).
    destruct (Hclaim tk _ Hinit eq_refl Hcont) as (target & Htarget & Htext).
    rewrite Hret in Htarget. injection Htarget as <-.
    rewrite Hfile in Htext. discriminate Htext.
  - intros Hclaim.
    assert (Hrun : exists tk,
               default_init bare_fs (lit "vocab.txt") = Return tk
               /\ ids_contiguous (vocab tk)
               /\ saved_return (save_vocabulary bare_fs tk (lit "nodir/saved.txt"))
                  = Raise OSError).
    { eexists. repeat split; reflexivity. }
    destruct Hrun as (tk & Hinit & Hcont & Hret).
    destruct (Hclaim tk _ Hinit eq_refl Hcont) as (target & Htarget & _).
    rewrite Hret in Htarget. discriminate Htarget.
  - intros Hclaim. destruct Hclaim as [Hlog _].
    + intros Hcont. vm_compute in Hcont. discriminate Hcont.
    + apply Hlog. reflexivity.
  - intros Hclaim. destruct Hclaim as (_ & target & Hret & _).
    + intros Hcont. vm_compute in Hcont. discriminate Hcont.
    + vm_compute in Hret. discriminate Hret.
Qed.

(** C4, amended. Provided the target can be opened for writing: saving a
    vocabulary right after loading it writes the original text back,
    without a warning, when the loaded ids are contiguous from 0 and the
    file has no carriage return and is empty or ends with a line feed; and
    whenever the ids of the vocabulary are not contiguous from 0 and every
    token can be encoded, saving logs a warning and still writes every
    token followed by a line feed, in ascending id order. In both cases it
    returns the path written, which is [vocab.txt] inside [vocab_path] when
    that is a directory and [vocab_path] otherwise. When the target cannot
    be opened the error of the open is raised and nothing is written or
    logged. *)
Theorem save_vocabulary_outcome :
  (forall (fs : filesystem) (vocab_file unk sep pad cls mask : str) (tk : t)
          (text vocab_path : str),
      __init__ fs vocab_file unk sep pad cls mask = Return tk ->
      file_text fs vocab_file = Some text ->
      no_carriage_return text = true ->
      newline_terminated text = true ->
      ids_contiguous (vocab tk) ->
      open_for_writing fs (save_target fs vocab_path) = Return tt ->
      saved_return (save_vocabulary fs tk vocab_path)
      = Return [save_target fs vocab_path]
      /\ file_text (saved_fs (save_vocabulary fs tk vocab_path))
           (save_target fs vocab_path) = Some text
      /\ saved_log (save_vocabulary fs tk vocab_path) = [])
  /\ (forall (fs : filesystem) (self : t) (vocab_path : str),
         ~ ids_contiguous (vocab self) ->
         open_for_writing fs (save_target fs vocab_path) = Return tt ->
         Forall (fun kv => encodable (fst kv) = true) (vocab self) ->
         let items := sorted (fun kv : str * Z => snd kv) (od_items (vocab self)) in
         saved_log (save_vocabulary fs self vocab_path) <> []
         /\ saved_return (save_vocabulary fs self vocab_path)
            = Return [save_target fs vocab_path]
         /\ file_text (saved_fs (save_vocabulary fs self vocab_path))
              (save_target fs vocab_path)
            = Some (concat (map (fun kv => fst kv ++ [LF]) items))
         /\ Permutation items (od_items (vocab self))
         /\ StronglySorted (fun a b => (snd a <= snd b)%Z) items)
  /\ (forall (fs : filesystem) (self : t) (vocab_path : str) (e : exn),
         open_for_writing fs (save_target fs vocab_path) = Raise e ->
         saved_return (save_vocabulary fs self vocab_path) = Raise e
         /\ saved_fs (save_vocabulary fs self vocab_path) = fs
         /\ saved_log (save_vocabulary fs self vocab_path) = []).
Proof.
  split; [|split].
  - intros fs vocab_file unk sep pad cls mask tk text vocab_path
           Hinit Htext Hcr Hterm Hcont Hopen.
    destruct (init_inv _ _ _ _ _ _ _ _ Hinit) as (text' & Htext' & Hv & _).
    rewrite Htext in Htext'. injection Htext' as <-.
    assert (Henc : Forall (fun kv => encodable (fst kv) = true) (vocab tk)).
    { rewrite Hv. apply loaded_tokens_encodable.
      eapply file_text_scalar; eassumption. }
    destruct (save_opened fs tk vocab_path Hopen Henc) as (Hret & Hfile & Hlog).
    split; [exact Hret|split; [|now apply Hlog]].
    rewrite Hfile. f_equal.
    rewrite (translate_newlines_none _ Hcr) in Hv.
    pose proof Hcont as Hload. rewrite Hv in Hload. apply contiguous_load in Hload.
    rewrite (sorted_consecutive _ _ 0).
    + unfold od_items. rewrite Hv, Hload.
      rewrite <- (map_map fst (fun tok => tok ++ [LF])).
      unfold vocab_entries. rewrite vocab_entries_from_keys.
      unfold line_tokens. rewrite map_map.
      rewrite <- (readlines_concat text) at 2. f_equal.
      rewrite <- (map_id (readlines text)) at 2.
      apply map_ext_in. intros l Hin.
      pose proof (readlines_terminated text Hterm) as Hall.
      rewrite Forall_forall in Hall. now apply Hall.
    + unfold od_items. rewrite Hv, Hload. unfold vocab_entries.
      rewrite vocab_entries_from_ids. apply (consecutive_from_seq _ 0).
      now rewrite length_map, length_seq.
  - intros fs self vocab_path Hnot Hopen Henc items.
    destruct (save_opened fs self vocab_path Hopen Henc) as (Hret & Hfile & Hlog).
    split; [|split; [exact Hret|split; [exact Hfile|split]]].
    + intros Hnil. apply Hnot. now apply Hlog.
    + apply sorted_perm.
    + apply sorted_ascending.
  - intros fs self vocab_path e Hopen.
    rewrite (save_unopened fs self vocab_path e Hopen). now repeat split.
Qed.

Lemma save_vocabulary_outcome_witness :
  (exists tk,
      default_init example_fs (lit "vocab.txt") = Return tk
      /\ file_text (saved_fs (save_vocabulary example_fs tk (lit "out")))
           (lit "out/vocab.txt")
         = Some example_vocab_text)
  /\ saved_log (save_vocabulary repeated_fs gapped_tokenizer (lit "saved.txt")) <> []
  /\ saved_return (save_vocabulary bare_fs gapped_tokenizer (lit "nodir/saved.txt"))
     = Raise OSError
  /\ saved_fs (save_vocabulary guarded_fs gapped_tokenizer (lit "fixed.txt"))
     = guarded_fs
  /\ saved_return (save_vocabulary bare_fs gapped_tokenizer [0%N])
     = Raise ValueError.
Proof.
  split; [|split; [|split; [|split]]].
  - assert (Hinit : exists tk, default_init example_fs (lit "vocab.txt") = Return tk)
      by (eexists; reflexivity).
    destruct Hinit as [tk Hinit]. exists tk. split; [exact Hinit|].
    assert (Hv : vocab tk
                 = load_vocab_lines (readlines (translate_newlines example_vocab_text))).
    { vm_compute in Hinit. injection Hinit as <-. reflexivity. }
    apply (proj1 save_vocabulary_outcome example_fs (lit "vocab.txt")
             (lit "[UNK]") (lit "[SEP]") (lit "[PAD]") (lit "[CLS]") (lit "[MASK]")
             tk example_vocab_text (lit "out") Hinit eq_refl eq_refl eq_refl).
    + rewrite Hv. reflexivity.
    + reflexivity.
  - apply (proj1 (proj2 save_vocabulary_outcome) repeated_fs gapped_tokenizer
             (lit "saved.txt")).
    + intros Hcont. vm_compute in Hcont. discriminate Hcont.
    + reflexivity.
    + repeat constructor.
  - apply (proj2 (proj2 save_vocabulary_outcome) bare_fs gapped_tokenizer
             (lit "nodir/saved.txt") OSError).
    reflexivity.
  - apply (proj2 (proj2 save_vocabulary_outcome) guarded_fs gapped_tokenizer
             (lit "fixed.txt") OSError).
    reflexivity.
  - apply (proj2 (proj2 save_vocabulary_outcome) bare_fs gapped_tokenizer
             [0%N] ValueError).
    reflexivity.
Defined.

(* ================================================================== *)
(** * Further properties: the loaded vocabulary                         *)
(* ================================================================== *)

Lemma init_vocab (fs : filesystem) (vocab_file unk sep pad cls mask : str)
    (tk : t) (text : str) :
  __init__ fs vocab_file unk sep pad cls mask = Return tk ->
  file_text fs vocab_file = Some text ->
  vocab tk = load_vocab_lines (vocab_lines text)
  /\ ids_to_tokens tk
     = od_of_list (map (fun kv => (snd kv, fst kv)) (od_items (vocab tk)))
  /\ unk_token tk = unk.
Proof.
  intros Hinit Htext.
  destruct (init_inv _ _ _ _ _ _ _ _ Hinit) as (text' & Htext' & Hv & Hr & Hu & _).
  rewrite Htext in Htext'. injection Htext' as <-. now repeat split.
Qed.

Lemma load_vocab_lines_length (lines : list str) :
  length (load_vocab_lines lines) <= length lines.
Proof.
  rewrite load_vocab_lines_of_list.
  pose proof (od_fold_length (vocab_entries lines) []) as Hle.
  unfold vocab_entries in Hle. rewrite vocab_entries_from_length in Hle.
  exact Hle.
Qed.

Lemma load_vocab_lines_distinct (lines : list str) :
  NoDup (line_tokens lines) <-> load_vocab_lines lines = vocab_entries lines.
Proof.
  split.
  - intros Hnd. rewrite load_vocab_lines_of_list. unfold od_of_list.
    rewrite od_fold_fresh; [reflexivity| |reflexivity].
    unfold vocab_entries. now rewrite vocab_entries_from_keys.
  - intros Heq. pose proof (load_vocab_lines_NoDup lines) as Hnd.
    rewrite Heq in Hnd. unfold vocab_entries in Hnd.
    now rewrite vocab_entries_from_keys in Hnd.
Qed.

Lemma load_vocab_lines_full (lines : list str) :
  length (load_vocab_lines lines) = length lines <-> NoDup (line_tokens lines).
Proof.
  split.
  - intros Hlen. rewrite load_vocab_lines_of_list in Hlen.
    destruct (od_fold_full (vocab_entries lines) []) as [Hnd _].
    + unfold od_of_list in Hlen. simpl. rewrite Hlen. unfold vocab_entries.
      now rewrite vocab_entries_from_length.
    + unfold vocab_entries in Hnd. now rewrite vocab_entries_from_keys in Hnd.
  - intros Hnd. apply load_vocab_lines_distinct in Hnd. rewrite Hnd.
    unfold vocab_entries. apply vocab_entries_from_length.
Qed.

(** X1. The vocabulary size of a constructed tokenizer is at most the
    number of lines of the vocabulary file, and equals it exactly when no
    two lines hold the same token. *)
Theorem vocab_size_counts_distinct_lines (fs : filesystem)
    (vocab_file unk sep pad cls mask : str) (tk : t) (text : str) :
  __init__ fs vocab_file unk sep pad cls mask = Return tk ->
  file_text fs vocab_file = Some text ->
  vocab_size tk <= length (vocab_lines text)
  /\ (vocab_size tk = length (vocab_lines text)
      <-> NoDup (line_tokens (vocab_lines text))).
Proof.
  intros Hinit Htext.
  destruct (init_vocab _ _ _ _ _ _ _ _ _ Hinit Htext) as (Hv & _).
  unfold vocab_size, od_len. rewrite Hv. split.
  - apply load_vocab_lines_length.
  - apply load_vocab_lines_full.
Qed.

Lemma vocab_size_counts_distinct_lines_witness :
  exists tk,
    default_init repeated_fs (lit "vocab.txt") = Return tk
    /\ vocab_size tk <= 3.
Proof.
  assert (Hinit : exists tk, default_init repeated_fs (lit "vocab.txt") = Return tk)
    by (eexists; reflexivity).
  destruct Hinit as [tk Hinit]. exists tk. split; [exact Hinit|].
  apply (vocab_size_counts_distinct_lines repeated_fs (lit "vocab.txt")
           (lit "[UNK]") (lit "[SEP]") (lit "[PAD]") (lit "[CLS]") (lit "[MASK]")
           tk (lit "a" ++ [LF] ++ lit "b" ++ [LF] ++ lit "a" ++ [LF])
           Hinit eq_refl).
Defined.

Lemma last_line_exists (toks : list str) (tok : str) :
  In tok toks -> exists j, last_line toks tok j.
Proof.
  induction toks as [|x r IH]; [contradiction|].
  intros Hin.
  destruct (in_dec (list_eq_dec N.eq_dec) tok r) as [Hr|Hr].
  - destruct (IH Hr) as (j & Hj & Hlast). exists (S j). split; [exact Hj|].
    intros [|k] Hk; [lia|]. apply Hlast. lia.
  - destruct Hin as [->|Hin]; [|contradiction].
    exists 0. split; [reflexivity|].
    intros [|k] Hk; [lia|]. simpl. intros Hn. apply Hr.
    eapply nth_error_In; eassumption.
Qed.

Lemma last_line_bound (toks : list str) (tok : str) (j : nat) :
  last_line toks tok j -> j < length toks.
Proof.
  intros [Hj _]. apply nth_error_Some. congruence.
Qed.

(** X2. The keys of a constructed tokenizer's vocabulary are exactly the
    tokens of the file's lines, and the id of a token is the index of the
    last line that holds it. *)
Theorem vocab_keys_are_line_tokens (fs : filesystem)
    (vocab_file unk sep pad cls mask : str) (tk : t) (text : str) :
  __init__ fs vocab_file unk sep pad cls mask = Return tk ->
  file_text fs vocab_file = Some text ->
  (forall tok, in_vocab tk tok <-> In tok (line_tokens (vocab_lines text)))
  /\ (forall tok i,
         od_get tok (vocab tk) = Some i ->
         exists j,
           i = Z.of_nat j
           /\ j < length (vocab_lines text)
           /\ nth_error (line_tokens (vocab_lines text)) j = Some tok
           /\ forall k, j < k ->
                nth_error (line_tokens (vocab_lines text)) k <> Some tok).
Proof.
  intros Hinit Htext.
  destruct (init_vocab _ _ _ _ _ _ _ _ _ Hinit Htext) as (Hv & _).
  split.
  - intros tok. unfold in_vocab. rewrite Hv. split.
    + intros Hin.
      destruct (od_get tok (load_vocab_lines (vocab_lines text))) as [i|] eqn:E;
        [|congruence].
      apply load_vocab_lines_get in E as (j & _ & Hj & _).
      eapply nth_error_In; eassumption.
    + intros Hin. destruct (last_line_exists _ _ Hin) as [j Hj].
      assert (Hget : od_get tok (load_vocab_lines (vocab_lines text))
                     = Some (Z.of_nat j))
        by (apply load_vocab_lines_get; now exists j).
      rewrite Hget. discriminate.
  - intros tok i Hget. rewrite Hv in Hget.
    apply load_vocab_lines_get in Hget as (j & -> & Hj).
    exists j. split; [reflexivity|].
    pose proof (last_line_bound _ _ _ Hj) as Hlt.
    unfold line_tokens in Hlt. rewrite length_map in Hlt.
    destruct Hj as [Hnth Hlast]. now repeat split.
Qed.

Lemma vocab_keys_are_line_tokens_witness :
  exists tk,
    default_init repeated_fs (lit "vocab.txt") = Return tk
    /\ (in_vocab tk (lit "b") <-> In (lit "b") [lit "a"; lit "b"; lit "a"]).
Proof.
  assert (Hinit : exists tk, default_init repeated_fs (lit "vocab.txt") = Return tk)
    by (eexists; reflexivity).
  destruct Hinit as [tk Hinit]. exists tk. split; [exact Hinit|].
  apply (vocab_keys_are_line_tokens repeated_fs (lit "vocab.txt")
           (lit "[UNK]") (lit "[SEP]") (lit "[PAD]") (lit "[CLS]") (lit "[MASK]")
           tk (lit "a" ++ [LF] ++ lit "b" ++ [LF] ++ lit "a" ++ [LF])
           Hinit eq_refl).
Defined.

Lemma translate_newlines_no_cr (s : str) :
  no_carriage_return (translate_newlines s) = true.
Proof.
  induction s as [|c r IH]; [reflexivity|].
  simpl translate_newlines. destruct (c =? CR)%N eqn:Hc.
  - destruct r as [|c' r']; [reflexivity|].
    destruct (c' =? LF)%N; [exact IH|].
    simpl. exact IH.
  - simpl. now rewrite Hc, IH.
Qed.

Lemma readlines_tokens_no_lf (s : str) :
  Forall (fun l => forallb (fun c => negb (c =? LF)%N) (rstrip_chars [LF] l) = true)
    (readlines s).
Proof.
  induction s as [|c r IH]; [constructor|].
  simpl readlines. destruct (c =? LF)%N eqn:Hc.
  - constructor; [|exact IH]. apply N.eqb_eq in Hc. subst c. reflexivity.
  - destruct (readlines r) as [|l ls].
    + constructor; [|constructor]. unfold rstrip_chars. simpl.
      rewrite Hc. simpl. now rewrite Hc.
    + inversion IH as [|? ? Hl Hls]; subst. constructor; [|exact Hls].
      unfold rstrip_chars in *. simpl rstrip_if.
      destruct (rstrip_if (in_chars [LF]) l) as [|y l'].
      * rewrite Hc. simpl. now rewrite Hc.
      * simpl. rewrite Hc. exact Hl.
Qed.

Lemma line_tokens_no_line_break (text : str) :
  Forall (fun tok => no_line_break tok = true) (line_tokens (vocab_lines text)).
Proof.
  unfold line_tokens, vocab_lines. apply Forall_map.
  pose proof (readlines_tokens_no_lf (translate_newlines text)) as Hlf.
  rewrite Forall_forall in *. intros l Hl. specialize (Hlf l Hl).
  unfold no_line_break. rewrite forallb_forall in *. intros c Hc.
  rewrite (Hlf c Hc). simpl.
  pose proof (translate_newlines_no_cr text) as Hcr.
  unfold no_carriage_return in Hcr. rewrite forallb_forall in Hcr.
  apply Hcr. rewrite <- (readlines_concat (translate_newlines text)).
  apply in_concat. exists l. split; [exact Hl|].
  unfold rstrip_chars in Hc. eapply rstrip_if_incl; eassumption.
Qed.

(** X3. No token of a constructed tokenizer's vocabulary contains a line
    feed or a carriage return; in particular neither character is itself a
    token, so both always convert to the unknown token's id. *)
Theorem vocab_tokens_have_no_line_break (fs : filesystem)
    (vocab_file unk sep pad cls mask : str) (tk : t) (text : str) :
  __init__ fs vocab_file unk sep pad cls mask = Return tk ->
  file_text fs vocab_file = Some text ->
  (forall tok, in_vocab tk tok -> no_line_break tok = true)
  /\ _convert_token_to_id tk [LF] = od_get (unk_token tk) (vocab tk)
  /\ _convert_token_to_id tk [CR] = od_get (unk_token tk) (vocab tk).
Proof.
  intros Hinit Htext.
  destruct (init_vocab _ _ _ _ _ _ _ _ _ Hinit Htext) as (Hv & _).
  assert (Hclean : forall tok, in_vocab tk tok -> no_line_break tok = true).
  { intros tok Hin. unfold in_vocab in Hin. rewrite Hv in Hin.
    destruct (od_get tok (load_vocab_lines (vocab_lines text))) as [i|] eqn:E;
      [|congruence].
    apply load_vocab_lines_get in E as (j & _ & Hj & _).
    apply nth_error_In in Hj.
    pose proof (line_tokens_no_line_break text) as Hall.
    rewrite Forall_forall in Hall. now apply Hall. }
  split; [exact Hclean|]. unfold _convert_token_to_id. split.
  - destruct (@od_get str Z _ [LF] (vocab tk)) as [i|] eqn:E; [|reflexivity].
    assert (Hin : in_vocab tk [LF]) by (unfold in_vocab; congruence).
    apply Hclean in Hin. discriminate Hin.
  - destruct (@od_get str Z _ [CR] (vocab tk)) as [i|] eqn:E; [|reflexivity].
    assert (Hin : in_vocab tk [CR]) by (unfold in_vocab; congruence).
    apply Hclean in Hin. discriminate Hin.
Qed.

Lemma vocab_tokens_have_no_line_break_witness :
  exists tk,
    default_init example_fs (lit "vocab.txt") = Return tk
    /\ _convert_token_to_id tk [LF] = od_get (unk_token tk) (vocab tk).
Proof.
  assert (Hinit : exists tk, default_init example_fs (lit "vocab.txt") = Return tk)
    by (eexists; reflexivity).
  destruct Hinit as [tk Hinit]. exists tk. split; [exact Hinit|].
  apply (vocab_tokens_have_no_line_break example_fs (lit "vocab.txt")
           (lit "[UNK]") (lit "[SEP]") (lit "[PAD]") (lit "[CLS]") (lit "[MASK]")
           tk example_vocab_text Hinit eq_refl).
Defined.

Lemma load_vocab_lines_ids_NoDup (lines : list str) :
  NoDup (map snd (load_vocab_lines lines)).
Proof.
  apply NoDup_map_NoDup_ForallPairs.
  - intros [t1 i1] [t2 i2] H1 H2. simpl. intros <-.
    apply od_In_get in H1; [|apply load_vocab_lines_NoDup].
    apply od_In_get in H2; [|apply load_vocab_lines_NoDup].
    f_equal. eapply load_vocab_lines_injective; eassumption.
  - eapply NoDup_map_inv. apply load_vocab_lines_NoDup.
Qed.

(** X4. The reverse map of a constructed tokenizer is the vocabulary's
    item list with each pair swapped, in the same order: one entry per
    token, none dropped by a shared id. *)
Theorem reverse_map_mirrors_vocab (fs : filesystem)
    (vocab_file unk sep pad cls mask : str) (tk : t) :
  __init__ fs vocab_file unk sep pad cls mask = Return tk ->
  ids_to_tokens tk = map (fun kv => (snd kv, fst kv)) (od_items (vocab tk))
  /\ od_len (ids_to_tokens tk) = vocab_size tk.
Proof.
  intros Hinit.
  destruct (init_inv _ _ _ _ _ _ _ _ Hinit) as (text & _ & Hv & Hr & _).
  assert (Heq : ids_to_tokens tk
                = map (fun kv => (snd kv, fst kv)) (od_items (vocab tk))).
  { rewrite Hr. unfold od_of_list, od_items.
    rewrite od_fold_fresh; [reflexivity| |reflexivity].
    rewrite map_map. simpl. rewrite Hv. apply load_vocab_lines_ids_NoDup. }
  split; [exact Heq|].
  unfold od_len, vocab_size, od_len. rewrite Heq. unfold od_items.
  apply length_map.
Qed.

Lemma reverse_map_mirrors_vocab_witness :
  exists tk,
    default_init repeated_fs (lit "vocab.txt") = Return tk
    /\ ids_to_tokens tk = [(2%Z, lit "a"); (1%Z, lit "b")].
Proof.
  assert (Hinit : exists tk, default_init repeated_fs (lit "vocab.txt") = Return tk)
    by (eexists; reflexivity).
  destruct Hinit as [tk Hinit]. exists tk. split; [exact Hinit|].
  rewrite (proj1 (reverse_map_mirrors_vocab repeated_fs (lit "vocab.txt")
                    (lit "[UNK]") (lit "[SEP]") (lit "[PAD]") (lit "[CLS]")
                    (lit "[MASK]") tk Hinit)).
  vm_compute in Hinit. injection Hinit as <-. reflexivity.
Defined.

(** X5. For a constructed tokenizer, every id the reverse map holds
    converts to a token that converts back to the same id. *)
Theorem id_token_id_round_trip (fs : filesystem)
    (vocab_file unk sep pad cls mask : str) (tk : t) (i : Z) :
  __init__ fs vocab_file unk sep pad cls mask = Return tk ->
  od_get i (ids_to_tokens tk) <> None ->
  in_vocab tk (_convert_id_to_token tk (Some i))
  /\ _convert_token_to_id tk (_convert_id_to_token tk (Some i)) = Some i.
Proof.
  intros Hinit Hi.
  pose proof (init_in_sync _ _ _ _ _ _ _ _ Hinit) as Hsync.
  unfold _convert_id_to_token, _convert_token_to_id, in_vocab.
  destruct (od_get i (ids_to_tokens tk)) as [tok|] eqn:E; [|congruence].
  apply Hsync in E. rewrite E. split; [discriminate|reflexivity].
Qed.

Lemma id_token_id_round_trip_witness :
  exists tk,
    default_init example_fs (lit "vocab.txt") = Return tk
    /\ _convert_token_to_id tk (_convert_id_to_token tk (Some 6%Z)) = Some 6%Z.
Proof.
  assert (Hinit : exists tk, default_init example_fs (lit "vocab.txt") = Return tk)
    by (eexists; reflexivity).
  destruct Hinit as [tk Hinit]. exists tk. split; [exact Hinit|].
  apply (id_token_id_round_trip example_fs (lit "vocab.txt")
           (lit "[UNK]") (lit "[SEP]") (lit "[PAD]") (lit "[CLS]") (lit "[MASK]")
           tk 6%Z Hinit).
  vm_compute in Hinit. injection Hinit as <-. discriminate.
Defined.

(** X6. For a constructed tokenizer, an id that is negative or not below
    the number of lines of the vocabulary file converts to the
    unknown-token string, and every id converts either to that string or to
    a token of the vocabulary. *)
Theorem unmapped_id_is_unknown (fs : filesystem)
    (vocab_file unk sep pad cls mask : str) (tk : t) (text : str) :
  __init__ fs vocab_file unk sep pad cls mask = Return tk ->
  file_text fs vocab_file = Some text ->
  (forall i, (i < 0 \/ Z.of_nat (length (vocab_lines text)) <= i)%Z ->
             _convert_id_to_token tk (Some i) = unk_token tk)
  /\ (forall index,
         _convert_id_to_token tk index = unk_token tk
         \/ in_vocab tk (_convert_id_to_token tk index)).
Proof.
  intros Hinit Htext.
  pose proof (init_in_sync _ _ _ _ _ _ _ _ Hinit) as Hsync.
  destruct (init_vocab _ _ _ _ _ _ _ _ _ Hinit Htext) as (Hv & _).
  split.
  - intros i Hrange. unfold _convert_id_to_token.
    destruct (od_get i (ids_to_tokens tk)) as [tok|] eqn:E; [|reflexivity].
    apply Hsync in E. rewrite Hv in E.
    apply load_vocab_lines_get in E as (j & -> & Hj).
    apply last_line_bound in Hj. unfold line_tokens in Hj.
    rewrite length_map in Hj. lia.
  - intros [i|]; [|now left]. unfold _convert_id_to_token.
    destruct (od_get i (ids_to_tokens tk)) as [tok|] eqn:E; [|now left].
    right. apply Hsync in E. unfold in_vocab. congruence.
Qed.

Lemma unmapped_id_is_unknown_witness :
  exists tk,
    default_init example_fs (lit "vocab.txt") = Return tk
    /\ _convert_id_to_token tk (Some 8%Z) = unk_token tk.
Proof.
  assert (Hinit : exists tk, default_init example_fs (lit "vocab.txt") = Return tk)
    by (eexists; reflexivity).
  destruct Hinit as [tk Hinit]. exists tk. split; [exact Hinit|].
  apply (unmapped_id_is_unknown example_fs (lit "vocab.txt")
           (lit "[UNK]") (lit "[SEP]") (lit "[PAD]") (lit "[CLS]") (lit "[MASK]")
           tk example_vocab_text Hinit eq_refl).
  right. vm_compute. discriminate.
Defined.

(** X7. For a constructed tokenizer, the id a token converts to is, when
    it is an integer, a line index of the vocabulary file that the reverse
    map can convert back; it is [None] exactly when neither the token nor
    the unknown token is in the vocabulary. *)
Theorem token_id_in_range (fs : filesystem)
    (vocab_file unk sep pad cls mask : str) (tk : t) (text : str) :
  __init__ fs vocab_file unk sep pad cls mask = Return tk ->
  file_text fs vocab_file = Some text ->
  (forall tok i,
      _convert_token_to_id tk tok = Some i ->
      (0 <= i < Z.of_nat (length (vocab_lines text)))%Z
      /\ od_get i (ids_to_tokens tk) <> None)
  /\ (forall tok,
         _convert_token_to_id tk tok = None
         <-> ~ in_vocab tk tok /\ ~ in_vocab tk (unk_token tk)).
Proof.
  intros Hinit Htext.
  pose proof (init_in_sync _ _ _ _ _ _ _ _ Hinit) as Hsync.
  destruct (init_vocab _ _ _ _ _ _ _ _ _ Hinit Htext) as (Hv & _).
  assert (Hkey : forall tok i,
             od_get tok (vocab tk) = Some i ->
             (0 <= i < Z.of_nat (length (vocab_lines text)))%Z
             /\ od_get i (ids_to_tokens tk) <> None).
  { intros tok i Hget. split.
    - rewrite Hv in Hget. apply load_vocab_lines_get in Hget as (j & -> & Hj).
      apply last_line_bound in Hj. unfold line_tokens in Hj.
      rewrite length_map in Hj. lia.
    - apply Hsync in Hget. congruence. }
  split.
  - intros tok i. unfold _convert_token_to_id.
    destruct (od_get tok (vocab tk)) as [i'|] eqn:E.
    + intros Heq. injection Heq as <-. now apply (Hkey tok).
    + intros Hunk. now apply (Hkey (unk_token tk)).
  - intros tok. unfold _convert_token_to_id, in_vocab.
    destruct (od_get tok (vocab tk)) as [i|].
    + split; [discriminate|]. intros [H1 _]. exfalso. apply H1. discriminate.
    + destruct (od_get (unk_token tk) (vocab tk)) as [u|].
      * split; [discriminate|]. intros [_ H2]. exfalso. apply H2. discriminate.
      * split; [|reflexivity]. intros _. split; intros H; now apply H.
Qed.

Lemma token_id_in_range_witness :
  exists tk,
    default_init repeated_fs (lit "vocab.txt") = Return tk
    /\ _convert_token_to_id tk (lit "zzz") = None.
Proof.
  assert (Hinit : exists tk, default_init repeated_fs (lit "vocab.txt") = Return tk)
    by (eexists; reflexivity).
  destruct Hinit as [tk Hinit]. exists tk. split; [exact Hinit|].
  apply (token_id_in_range repeated_fs (lit "vocab.txt")
           (lit "[UNK]") (lit "[SEP]") (lit "[PAD]") (lit "[CLS]") (lit "[MASK]")
           tk (lit "a" ++ [LF] ++ lit "b" ++ [LF] ++ lit "a" ++ [LF])
           Hinit eq_refl).
  vm_compute in Hinit. injection Hinit as <-.
  split; intros Hin; apply Hin; reflexivity.
Defined.

(* ================================================================== *)
(** * Further properties: segmenting and joining                        *)
(* ================================================================== *)

Lemma split_nil_blank (text : str) :
  split text = [] <-> forallb isspace text = true.
Proof.
  split.
  - intros Hs. apply split_scan_nil in Hs as [_ Hs]. now apply rstrip_if_nil.
  - apply split_blank.
Qed.

Lemma split_join_words (ws : list str) :
  Forall word ws -> split (join [SPACE] ws) = ws.
Proof.
  induction 1 as [|w rest Hw Hrest IH]; [reflexivity|].
  destruct rest as [|w' rest'].
  - simpl. now apply split_single_word.
  - rewrite join_cons by discriminate.
    change (w ++ [SPACE] ++ join [SPACE] (w' :: rest'))
      with (w ++ SPACE :: join [SPACE] (w' :: rest')).
    rewrite (split_word_then w _ SPACE Hw eq_refl). now rewrite IH.
Qed.

(** X8. [whitespace_tokenize] returns words (not empty, free of
    whitespace), returns no word exactly when the text is empty or all
    whitespace, and gives back any list of words joined by single spaces. *)
Theorem whitespace_tokenize_words (text : str) :
  Forall word (whitespace_tokenize text)
  /\ (whitespace_tokenize text = [] <-> forallb isspace text = true)
  /\ (forall ws, Forall word ws -> whitespace_tokenize (join [SPACE] ws) = ws).
Proof.
  split; [|split].
  - rewrite whitespace_tokenize_split. apply split_words.
  - rewrite whitespace_tokenize_split. apply split_nil_blank.
  - intros ws Hws. rewrite whitespace_tokenize_split. now apply split_join_words.
Qed.

Lemma whitespace_tokenize_words_witness :
  whitespace_tokenize (join [SPACE] [lit "ab"; [GA]; lit "c"])
  = [lit "ab"; [GA]; lit "c"].
Proof.
  apply (whitespace_tokenize_words []).
  repeat constructor; discriminate.
Defined.

(** X9. Segmenting what the detokenizer makes of a text's segments gives
    the same segments again: segmentation is stable under a decode. *)
Theorem tokenize_stable (self self' : t) (text : str) :
  _tokenize self' (convert_tokens_to_string self (_tokenize self text))
  = _tokenize self text.
Proof.
  unfold _tokenize, convert_tokens_to_string.
  rewrite concat_chars.
  rewrite (join_words_strip _ (split_words text)).
  now rewrite (split_join_words _ (split_words text)).
Qed.

Lemma join_words_spaces (ws : list str) :
  Forall word ws ->
  Forall (fun c => isspace c = true -> c = SPACE) (join [SPACE] ws).
Proof.
  induction 1 as [|w rest [_ Hw] Hrest IH]; [constructor|].
  assert (Hword : Forall (fun c => isspace c = true -> c = SPACE) w).
  { unfold clean in Hw. rewrite forallb_forall in Hw. apply Forall_forall.
    intros c Hc Hs. specialize (Hw c Hc). rewrite Hs in Hw. discriminate. }
  destruct rest as [|w' rest']; [exact Hword|].
  rewrite join_cons by discriminate.
  apply Forall_app. split; [exact Hword|].
  constructor; [reflexivity|exact IH].
Qed.

Lemma join_split_scan_length (s cur : str) :
  length (join [SPACE] (split_scan cur s)) <= length cur + length s.
Proof.
  revert cur. induction s as [|c r IH]; intros cur; simpl.
  - destruct cur; simpl; [lia|]. rewrite length_app, length_rev. simpl. lia.
  - destruct (isspace c).
    + destruct cur as [|x cur'].
      * simpl. specialize (IH []). simpl in IH. lia.
      * change (flush (x :: cur') ++ split_scan [] r)
          with (rev (x :: cur') :: split_scan [] r).
        specialize (IH []). simpl in IH.
        destruct (split_scan [] r) as [|w ws] eqn:E.
        -- simpl. rewrite length_app, length_rev. simpl. lia.
        -- rewrite join_cons by discriminate.
           rewrite !length_app, length_rev. simpl length at 1 2.
           simpl in *. lia.
    + specialize (IH (c :: cur)). simpl in IH. lia.
Qed.

(** X10. Every segment the segmenter returns is a single character, a
    whitespace character among them being the space; there are at most as
    many segments as characters in the text, and none exactly when the text
    is empty or all whitespace. *)
Theorem tokenize_shape (self : t) (text : str) :
  Forall (fun tok => exists c, tok = [c] /\ (isspace c = true -> c = SPACE))
    (_tokenize self text)
  /\ length (_tokenize self text) <= length text
  /\ (_tokenize self text = [] <-> forallb isspace text = true).
Proof.
  unfold _tokenize, chars. split; [|split].
  - apply Forall_map.
    pose proof (join_words_spaces _ (split_words text)) as Hall.
    rewrite Forall_forall in *. intros c Hc. exists c. split; [reflexivity|].
    now apply Hall.
  - rewrite length_map. apply (join_split_scan_length text []).
  - rewrite <- split_nil_blank. split.
    + intros Hnil. apply map_eq_nil in Hnil.
      destruct (split text) as [|w ws] eqn:E; [reflexivity|].
      exfalso. apply (join_words_nonempty (w :: ws)); [|discriminate|exact Hnil].
      rewrite <- E. apply split_words.
    + intros ->. reflexivity.
Qed.

Lemma lstrip_if_nil (p : char -> bool) (s : str) :
  lstrip_if p s = [] <-> forallb p s = true.
Proof.
  induction s as [|c r IH]; simpl; [tauto|].
  destruct (p c); simpl; [exact IH|]. split; discriminate.
Qed.

Lemma strip_nil (s : str) : strip s = [] <-> forallb isspace s = true.
Proof.
  unfold strip. rewrite rstrip_if_nil. split.
  - intros Hall. apply lstrip_if_nil.
    pose proof (lstrip_if_head isspace s) as Hhead.
    destruct (lstrip_if isspace s) as [|c r]; [reflexivity|].
    simpl in Hall. rewrite Hhead in Hall. discriminate.
  - intros Hall. apply lstrip_if_nil in Hall. now rewrite Hall.
Qed.

Lemma rstrip_if_last (p : char -> bool) (s body : str) (c : char) :
  rstrip_if p s = body ++ [c] -> p c = false.
Proof.
  revert body. induction s as [|x r IH]; intros body; simpl.
  - destruct body; discriminate.
  - destruct (rstrip_if p r) as [|y r'] eqn:E.
    + destruct (p x) eqn:Hx; [destruct body; discriminate|].
      destruct body as [|b body']; simpl.
      * intros Heq. injection Heq as <-. exact Hx.
      * intros Heq. injection Heq as _ Heq. destruct body'; discriminate.
    + destruct body as [|b body']; simpl.
      * intros Heq. discriminate.
      * intros Heq. injection Heq as _ Heq. now apply (IH body').
Qed.

Lemma strip_strip (s : str) : strip (strip s) = strip s.
Proof.
  unfold strip at 1.
  pose proof (strip_head s) as Hhead.
  destruct (strip s) as [|c r] eqn:E; [reflexivity|].
  rewrite (lstrip_if_clean_head isspace c r Hhead), <- E.
  apply strip_no_trailing.
Qed.

Lemma strip_between_words (a gap b : str) :
  word a -> word b -> strip (a ++ gap ++ b) = a ++ gap ++ b.
Proof.
  intros [Ha Hca] [Hb Hcb]. unfold strip. unfold clean in Hcb.
  assert (Hl : lstrip_if isspace (a ++ gap ++ b) = a ++ gap ++ b).
  { destruct a as [|x a']; [congruence|].
    simpl in Hca. apply andb_true_iff in Hca as [Hx _].
    apply negb_true_iff in Hx. simpl. now rewrite Hx. }
  rewrite Hl, app_assoc.
  rewrite rstrip_if_app_keep; rewrite (rstrip_if_clean isspace b Hcb);
    [reflexivity|exact Hb].
Qed.

(** X11. The string the detokenizer returns neither starts nor ends with
    whitespace, is left as it is by another strip, and is empty exactly
    when the tokens hold nothing but whitespace. Whitespace inside is kept. *)
Theorem detokenize_stripped (self : t) (tokens : list str) :
  strip (convert_tokens_to_string self tokens)
  = convert_tokens_to_string self tokens
  /\ (convert_tokens_to_string self tokens = []
      <-> forallb isspace (concat tokens) = true)
  /\ (forall c rest,
         convert_tokens_to_string self tokens = c :: rest -> isspace c = false)
  /\ (forall body c,
         convert_tokens_to_string self tokens = body ++ [c] -> isspace c = false)
  /\ (forall a b gap, word a -> word b ->
         convert_tokens_to_string self [a; gap; b] = a ++ gap ++ b).
Proof.
  unfold convert_tokens_to_string. split; [|split; [|split; [|split]]].
  - apply strip_strip.
  - apply strip_nil.
  - intros c rest Heq. pose proof (strip_head (concat tokens)) as Hhead.
    now rewrite Heq in Hhead.
  - intros body c Heq. unfold strip in Heq. eapply rstrip_if_last; eassumption.
  - intros a b gap Ha Hb. simpl. rewrite app_nil_r.
    now apply strip_between_words.
Qed.

Lemma detokenize_stripped_witness :
  convert_tokens_to_string
    {| unk_token := []; sep_token := []; pad_token := []; cls_token := [];
       mask_token := []; vocab := []; ids_to_tokens := [] |}
    [[GA]; [SPACE; SPACE]; [NA]]
  = [GA; SPACE; SPACE; NA].
Proof.
  apply (proj2 (proj2 (proj2 (proj2
           (detokenize_stripped
              {| unk_token := []; sep_token := []; pad_token := [];
                 cls_token := []; mask_token := []; vocab := [];
                 ids_to_tokens := [] |}
              []))))
           [GA] [NA] [SPACE; SPACE]);
    (split; [discriminate|reflexivity]).
Defined.

Lemma tokenize_shape_witness :
  _tokenize
    {| unk_token := []; sep_token := []; pad_token := []; cls_token := [];
       mask_token := []; vocab := []; ids_to_tokens := [] |}
    [SPACE; LF; SPACE]
  = [].
Proof.
  apply (tokenize_shape
           {| unk_token := []; sep_token := []; pad_token := []; cls_token := [];
              mask_token := []; vocab := []; ids_to_tokens := [] |}
           [SPACE; LF; SPACE]).
  reflexivity.
Defined.

(* ================================================================== *)
(** * Further properties: masks of assembled inputs                     *)
(* ================================================================== *)

Lemma mask_plain_ids (self : t) (ids : list token_id) :
  plain_ids self ids ->
  map (fun x => if existsb (token_id_eqb x) [sep_token_id self; cls_token_id self]
                then 1%Z else 0%Z) ids
  = repeat 0%Z (length ids).
Proof.
  induction 1 as [|x r [Hs Hc] Hr IH]; [reflexivity|].
  cbn [map length repeat]. rewrite IH. f_equal. simpl.
  destruct (token_id_eqb x (sep_token_id self)) eqn:E1;
    [apply token_id_eqb_eq in E1; contradiction|].
  destruct (token_id_eqb x (cls_token_id self)) eqn:E2;
    [apply token_id_eqb_eq in E2; contradiction|].
  reflexivity.
Qed.

Lemma mask_special_id (self : t) (x : token_id) :
  x = sep_token_id self \/ x = cls_token_id self ->
  (if existsb (token_id_eqb x) [sep_token_id self; cls_token_id self]
   then 1%Z else 0%Z) = 1%Z.
Proof.
  intros [->| ->]; simpl.
  - now rewrite (proj2 (token_id_eqb_eq _ _) eq_refl).
  - rewrite (proj2 (token_id_eqb_eq (cls_token_id self) _) eq_refl).
    now rewrite orb_true_r.
Qed.

(** X12. When no id of A (and of B) is the separator id or the classifier
    id, the mask computed from the assembled input, taken as already
    holding its special tokens, is the mask computed from A (and B)
    themselves. *)
Theorem mask_of_assembled_input (self : t) (A : list token_id)
    (B : option (list token_id)) :
  plain_ids self A ->
  match B with
  | Some ids => plain_ids self ids
  | None => True
  end ->
  get_special_tokens_mask self
    (build_inputs_with_special_tokens self A B) None true
  = get_special_tokens_mask self A B false.
Proof.
  intros HA HB. unfold get_special_tokens_mask, build_inputs_with_special_tokens.
  destruct B as [ids|]; f_equal.
  - rewrite !map_app. cbn [map].
    rewrite (mask_plain_ids self A HA), (mask_plain_ids self ids HB).
    rewrite !mask_special_id by tauto. reflexivity.
  - rewrite !map_app. cbn [map].
    rewrite (mask_plain_ids self A HA).
    rewrite !mask_special_id by tauto. reflexivity.
Qed.

Lemma mask_of_assembled_input_witness :
  exists tk,
    default_init example_fs (lit "vocab.txt") = Return tk
    /\ get_special_tokens_mask tk
         (build_inputs_with_special_tokens tk [Some 5%Z; Some 7%Z] (Some [Some 6%Z]))
         None true
       = Return [1; 0; 0; 1; 0; 1]%Z.
Proof.
  assert (Hinit : exists tk, default_init example_fs (lit "vocab.txt") = Return tk)
    by (eexists; reflexivity).
  destruct Hinit as [tk Hinit]. exists tk. split; [exact Hinit|].
  assert (Hsep : sep_token_id tk = Some 3%Z)
    by (vm_compute in Hinit; injection Hinit as <-; reflexivity).
  assert (Hcls : cls_token_id tk = Some 2%Z)
    by (vm_compute in Hinit; injection Hinit as <-; reflexivity).
  rewrite (mask_of_assembled_input tk [Some 5%Z; Some 7%Z] (Some [Some 6%Z])).
  - reflexivity.
  - unfold plain_ids. rewrite Hsep, Hcls. repeat constructor; discriminate.
  - unfold plain_ids. rewrite Hsep, Hcls. repeat constructor; discriminate.
Defined.

(* ================================================================== *)
(** * Further properties: saving and loading again                      *)
(* ================================================================== *)

Lemma vocab_entries_consecutive (lines : list str) :
  consecutive_from 0 (map snd (vocab_entries lines)).
Proof.
  unfold vocab_entries. rewrite vocab_entries_from_ids.
  apply (consecutive_from_seq _ 0). now rewrite length_map, length_seq.
Qed.

Lemma load_contiguous_iff_distinct (lines : list str) :
  ids_contiguous (load_vocab_lines lines) <-> NoDup (line_tokens lines).
Proof.
  split.
  - intros Hcont. apply load_vocab_lines_distinct. now apply contiguous_load.
  - intros Hnd. apply load_vocab_lines_distinct in Hnd. rewrite Hnd.
    apply ids_contiguous_consecutive.
    rewrite (sorted_consecutive _ _ 0); apply vocab_entries_consecutive.
Qed.

Lemma constructed_tokens_encodable (fs : filesystem)
    (vocab_file unk sep pad cls mask : str) (tk : t) :
  __init__ fs vocab_file unk sep pad cls mask = Return tk ->
  Forall (fun kv => encodable (fst kv) = true) (vocab tk).
Proof.
  intros Hinit.
  destruct (init_inv _ _ _ _ _ _ _ _ Hinit) as (text & Htext & Hv & _).
  rewrite Hv. apply loaded_tokens_encodable.
  eapply file_text_scalar; eassumption.
Qed.

(** X13. Saving the vocabulary of a constructed tokenizer to a target
    that can be opened for writing succeeds, and logs no warning exactly
    when no two lines of the vocabulary file hold the same token; when the
    target cannot be opened nothing is logged. *)
Theorem save_warns_on_duplicate_lines (fs fs' : filesystem)
    (vocab_file unk sep pad cls mask : str) (tk : t) (text vocab_path : str) :
  __init__ fs vocab_file unk sep pad cls mask = Return tk ->
  file_text fs vocab_file = Some text ->
  (open_for_writing fs' (save_target fs' vocab_path) = Return tt ->
   saved_return (save_vocabulary fs' tk vocab_path)
   = Return [save_target fs' vocab_path]
   /\ (saved_log (save_vocabulary fs' tk vocab_path) = []
       <-> NoDup (line_tokens (vocab_lines text))))
  /\ (forall e,
         open_for_writing fs' (save_target fs' vocab_path) = Raise e ->
         saved_return (save_vocabulary fs' tk vocab_path) = Raise e
         /\ saved_log (save_vocabulary fs' tk vocab_path) = []).
Proof.
  intros Hinit Htext.
  destruct (init_vocab _ _ _ _ _ _ _ _ _ Hinit Htext) as (Hv & _).
  split.
  - intros Hopen.
    destruct (save_opened fs' tk vocab_path Hopen
                (constructed_tokens_encodable _ _ _ _ _ _ _ _ Hinit))
      as (Hret & _ & Hlog).
    split; [exact Hret|]. rewrite Hlog, Hv. apply load_contiguous_iff_distinct.
  - intros e Hopen. rewrite (save_unopened fs' tk vocab_path e Hopen).
    now split.
Qed.

Lemma save_warns_on_duplicate_lines_witness :
  exists tk,
    default_init bare_fs (lit "vocab.txt") = Return tk
    /\ saved_log (save_vocabulary bare_fs tk (lit "copy.txt")) = []
    /\ saved_log (save_vocabulary bare_fs tk (lit "nodir/copy.txt")) = [].
Proof.
  assert (Hinit : exists tk, default_init bare_fs (lit "vocab.txt") = Return tk)
    by (eexists; reflexivity).
  destruct Hinit as [tk Hinit]. exists tk. split; [exact Hinit|].
  destruct (save_warns_on_duplicate_lines bare_fs bare_fs (lit "vocab.txt")
              (lit "[UNK]") (lit "[SEP]") (lit "[PAD]") (lit "[CLS]") (lit "[MASK]")
              tk (lit "a" ++ [LF] ++ lit "b" ++ [LF]) (lit "copy.txt") Hinit eq_refl)
    as [Hok _].
  destruct (save_warns_on_duplicate_lines bare_fs bare_fs (lit "vocab.txt")
              (lit "[UNK]") (lit "[SEP]") (lit "[PAD]") (lit "[CLS]") (lit "[MASK]")
              tk (lit "a" ++ [LF] ++ lit "b" ++ [LF]) (lit "nodir/copy.txt")
              Hinit eq_refl)
    as [_ Hfail].
  split.
  - apply (Hok eq_refl). repeat constructor; simpl; intuition discriminate.
  - apply (Hfail OSError eq_refl).
Defined.

Lemma no_lf_not_in_chars (tok : str) :
  no_line_break tok = true ->
  forallb (fun c => negb (in_chars [LF] c)) tok = true.
Proof.
  unfold no_line_break. rewrite !forallb_forall. intros Hall c Hc.
  specialize (Hall c Hc). apply andb_true_iff in Hall as [Hlf _].
  unfold in_chars. simpl. now rewrite orb_false_r.
Qed.

Lemma rstrip_written_line (tok : str) :
  no_line_break tok = true -> rstrip_chars [LF] (tok ++ [LF]) = tok.
Proof.
  intros Htok. unfold rstrip_chars.
  apply rstrip_if_strip_last; [reflexivity|now apply no_lf_not_in_chars].
Qed.

Lemma readlines_written_line (tok rest : str) :
  no_line_break tok = true ->
  readlines (tok ++ LF :: rest) = (tok ++ [LF]) :: readlines rest.
Proof.
  induction tok as [|c r IH]; [reflexivity|].
  simpl. rewrite !andb_true_iff, !negb_true_iff. intros [[Hlf _] Hr].
  now rewrite Hlf, (IH Hr).
Qed.

Lemma readlines_written (toks : list str) :
  Forall (fun tok => no_line_break tok = true) toks ->
  readlines (concat (map (fun tok => tok ++ [LF]) toks))
  = map (fun tok => tok ++ [LF]) toks.
Proof.
  induction 1 as [|tok r Htok Hr IH]; [reflexivity|].
  simpl. rewrite <- app_assoc. simpl.
  now rewrite (readlines_written_line _ _ Htok), IH.
Qed.

Lemma written_no_carriage_return (toks : list str) :
  Forall (fun tok => no_line_break tok = true) toks ->
  no_carriage_return (concat (map (fun tok => tok ++ [LF]) toks)) = true.
Proof.
  induction 1 as [|tok r Htok Hr IH]; [reflexivity|].
  cbn [map concat]. unfold no_carriage_return in *. rewrite !forallb_app.
  apply andb_true_iff. split; [|exact IH].
  apply andb_true_iff. split; [|reflexivity].
  unfold no_line_break in Htok. rewrite forallb_forall in *.
  intros c Hc. specialize (Htok c Hc). now apply andb_true_iff in Htok as [_ Hcr].
Qed.

Lemma line_tokens_written (toks : list str) :
  Forall (fun tok => no_line_break tok = true) toks ->
  line_tokens (map (fun tok => tok ++ [LF]) toks) = toks.
Proof.
  intros Hall. unfold line_tokens. rewrite map_map.
  rewrite <- (map_id toks) at 2. apply map_ext_in. intros tok Hin.
  rewrite Forall_forall in Hall. now apply rstrip_written_line, Hall.
Qed.

Lemma vocab_entries_from_combine (a : nat) (lines : list str) :
  vocab_entries_from a lines
  = combine (line_tokens lines) (map Z.of_nat (seq a (length lines))).
Proof.
  revert a. induction lines as [|x r IH]; intros a; [reflexivity|].
  rewrite vocab_entries_from_cons. simpl. now rewrite IH.
Qed.

Lemma init_of_text (fs : filesystem) (vocab_file unk sep pad cls mask text : str) :
  file_text fs vocab_file = Some text ->
  __init__ fs vocab_file unk sep pad cls mask
  = Return {| unk_token := unk; sep_token := sep; pad_token := pad;
              cls_token := cls; mask_token := mask;
              vocab := load_vocab_lines (vocab_lines text);
              ids_to_tokens :=
                od_of_list (map (fun kv => (snd kv, fst kv))
                              (od_items (load_vocab_lines (vocab_lines text)))) |}.
Proof.
  intros Htext. unfold __init__, load_vocab, vocab_lines.
  rewrite (file_text_isfile _ _ _ Htext).
  rewrite (proj2 (read_text_Return fs vocab_file (translate_newlines text))
             (ex_intro _ text (conj Htext eq_refl))).
  reflexivity.
Qed.

Lemma od_get_Some_In {V : Type} (k : str) (d : OrderedDict str V) :
  od_get k d <> None <-> In k (map fst d).
Proof.
  induction d as [|[k0 v0] r IH]; simpl; [tauto|].
  destruct (key_eqb k k0) eqn:E.
  - apply key_eqb_eq in E. subst k0. split; [now left|discriminate].
  - apply key_eqb_neq in E. rewrite IH. split; [now right|].
    intros [Heq|Hin]; [congruence|exact Hin].
Qed.

Lemma map_fst_combine {A B : Type} (l : list A) (l' : list B) :
  length l = length l' -> map fst (combine l l') = l.
Proof.
  revert l'. induction l as [|x r IH]; intros [|y r']; simpl;
    try reflexivity; try discriminate.
  intros Hlen. injection Hlen as Hlen. now rewrite IH.
Qed.

(** The vocabulary read back from what [save_vocabulary] wrote. *)
Lemma reload_saved_vocab (self : t) :
  NoDup (map fst (vocab self)) ->
  Forall (fun tok => no_line_break tok = true) (map fst (vocab self)) ->
  let toks := map fst (sorted (fun kv : str * Z => snd kv) (od_items (vocab self))) in
  let text := concat (map (fun kv => fst kv ++ [LF])
                        (sorted (fun kv : str * Z => snd kv) (od_items (vocab self)))) in
  Forall (fun tok => no_line_break tok = true) toks
  /\ NoDup toks
  /\ vocab_lines text = map (fun tok => tok ++ [LF]) toks
  /\ load_vocab_lines (vocab_lines text)
     = combine toks (map Z.of_nat (seq 0 (length (vocab self))))
  /\ load_vocab_lines (vocab_lines text)
     = vocab_entries (map (fun tok => tok ++ [LF]) toks)
  /\ text = concat (map (fun tok => tok ++ [LF]) toks).
Proof.
  intros Hnd Hclean toks text.
  pose proof (sorted_perm (fun kv : str * Z => snd kv) (od_items (vocab self)))
    as Hperm.
  assert (Hkeys : Permutation toks (map fst (vocab self)))
    by (apply Permutation_map; exact Hperm).
  assert (Htoks : Forall (fun tok => no_line_break tok = true) toks).
  { rewrite Forall_forall in *. intros tok Hin. apply Hclean.
    eapply Permutation_in; eassumption. }
  assert (Hnd' : NoDup toks).
  { eapply Permutation_NoDup; [apply Permutation_sym; exact Hkeys|exact Hnd]. }
  assert (Htext : text = concat (map (fun tok => tok ++ [LF]) toks)).
  { unfold text, toks. now rewrite map_map. }
  assert (Hlines : vocab_lines text = map (fun tok => tok ++ [LF]) toks).
  { unfold vocab_lines. rewrite Htext.
    rewrite (translate_newlines_none _ (written_no_carriage_return _ Htoks)).
    now apply readlines_written. }
  assert (Hdistinct : NoDup (line_tokens (map (fun tok => tok ++ [LF]) toks)))
    by now rewrite line_tokens_written.
  apply load_vocab_lines_distinct in Hdistinct.
  split; [exact Htoks|split; [exact Hnd'|split; [exact Hlines|]]].
  rewrite Hlines. split; [|split; [exact Hdistinct|exact Htext]].
  rewrite Hdistinct.
  unfold vocab_entries. rewrite vocab_entries_from_combine.
  rewrite (line_tokens_written _ Htoks), length_map.
  unfold toks. rewrite length_map, sorted_length. reflexivity.
Qed.

Lemma constructed_vocab_clean (fs : filesystem)
    (vocab_file unk sep pad cls mask : str) (tk : t) :
  __init__ fs vocab_file unk sep pad cls mask = Return tk ->
  NoDup (map fst (vocab tk))
  /\ Forall (fun tok => no_line_break tok = true) (map fst (vocab tk)).
Proof.
  intros Hinit.
  destruct (init_inv _ _ _ _ _ _ _ _ Hinit) as (text & _ & Hv & _).
  rewrite Hv. split; [apply load_vocab_lines_NoDup|].
  apply Forall_forall. intros tok Hin.
  apply od_get_Some_In in Hin.
  destruct (od_get tok (load_vocab_lines (readlines (translate_newlines text))))
    as [i|] eqn:E; [|congruence].
  apply load_vocab_lines_get in E as (j & _ & Hj & _).
  apply nth_error_In in Hj.
  pose proof (line_tokens_no_line_break text) as Hall.
  rewrite Forall_forall in Hall. now apply Hall.
Qed.

(** X14. When the target can be opened for writing, saving the
    vocabulary of a constructed tokenizer succeeds and constructing a
    tokenizer from the file it wrote succeeds; the new vocabulary holds the
    same tokens, in ascending order of their old ids and numbered 0, 1, 2,
    ..., so its ids are contiguous and its size is the old size. *)
Theorem save_then_load (fs : filesystem)
    (vocab_file unk sep pad cls mask : str) (tk : t)
    (vocab_path unk' sep' pad' cls' mask' : str) :
  __init__ fs vocab_file unk sep pad cls mask = Return tk ->
  open_for_writing fs (save_target fs vocab_path) = Return tt ->
  saved_return (save_vocabulary fs tk vocab_path)
  = Return [save_target fs vocab_path]
  /\ exists tk',
    __init__ (saved_fs (save_vocabulary fs tk vocab_path))
      (save_target fs vocab_path) unk' sep' pad' cls' mask' = Return tk'
    /\ od_items (vocab tk')
       = combine
           (map fst (sorted (fun kv : str * Z => snd kv) (od_items (vocab tk))))
           (map Z.of_nat (seq 0 (vocab_size tk)))
    /\ ids_contiguous (vocab tk')
    /\ vocab_size tk' = vocab_size tk
    /\ (forall tok, in_vocab tk' tok <-> in_vocab tk tok).
Proof.
  intros Hinit Hopen.
  destruct (constructed_vocab_clean _ _ _ _ _ _ _ _ Hinit) as [Hnd Hclean].
  destruct (reload_saved_vocab tk Hnd Hclean)
    as (Htoks & Hnd' & Hlines & Hload & _).
  destruct (save_opened fs tk vocab_path Hopen
              (constructed_tokens_encodable _ _ _ _ _ _ _ _ Hinit))
    as (Hret & Hfile & _).
  split; [exact Hret|].
  eexists. split; [apply init_of_text; exact Hfile|]. simpl.
  set (toks := map fst (sorted (fun kv : str * Z => snd kv) (od_items (vocab tk))))
    in *.
  assert (Hlen : length toks = length (vocab tk)).
  { unfold toks. now rewrite length_map, sorted_length. }
  split; [exact Hload|split; [|split]].
  - apply load_contiguous_iff_distinct. rewrite Hlines.
    now rewrite line_tokens_written.
  - unfold vocab_size, od_len. cbn [vocab].
    rewrite Hload, length_combine, length_map, length_seq.
    rewrite Hlen. apply Nat.min_id.
  - intros tok. unfold in_vocab. cbn [vocab]. rewrite !od_get_Some_In. rewrite Hload.
    rewrite map_fst_combine by (rewrite length_map, length_seq; exact Hlen).
    pose proof (sorted_perm (fun kv : str * Z => snd kv) (od_items (vocab tk)))
      as Hperm.
    apply (Permutation_map fst) in Hperm. fold toks in Hperm. unfold od_items in Hperm.
    split; intros Hin.
    + eapply Permutation_in; eassumption.
    + eapply Permutation_in; [apply Permutation_sym|]; eassumption.
Qed.

Lemma save_then_load_witness :
  exists tk tk',
    default_init repeated_fs (lit "vocab.txt") = Return tk
    /\ default_init (saved_fs (save_vocabulary repeated_fs tk (lit "copy.txt")))
         (lit "copy.txt") = Return tk'
    /\ od_items (vocab tk') = [(lit "b", 0%Z); (lit "a", 1%Z)].
Proof.
  assert (Hinit : exists tk, default_init repeated_fs (lit "vocab.txt") = Return tk)
    by (eexists; reflexivity).
  destruct Hinit as [tk Hinit]. exists tk.
  destruct (save_then_load repeated_fs (lit "vocab.txt")
              (lit "[UNK]") (lit "[SEP]") (lit "[PAD]") (lit "[CLS]") (lit "[MASK]")
              tk (lit "copy.txt")
              (lit "[UNK]") (lit "[SEP]") (lit "[PAD]") (lit "[CLS]") (lit "[MASK]")
              Hinit eq_refl)
    as (_ & tk' & Hinit' & Hitems & _).
  exists tk'. split; [exact Hinit|split; [exact Hinit'|]].
  rewrite Hitems. vm_compute in Hinit. injection Hinit as <-. reflexivity.
Defined.

(** X15. When both targets can be opened for writing, saving the
    tokenizer constructed from a saved vocabulary file succeeds, writes
    that file's text again, byte for byte, and logs no warning. *)
Theorem resave_reproduces (fs fs2 : filesystem)
    (vocab_file unk sep pad cls mask : str) (tk tk' : t)
    (vocab_path unk' sep' pad' cls' mask' vocab_path2 : str) :
  __init__ fs vocab_file unk sep pad cls mask = Return tk ->
  open_for_writing fs (save_target fs vocab_path) = Return tt ->
  __init__ (saved_fs (save_vocabulary fs tk vocab_path))
    (save_target fs vocab_path) unk' sep' pad' cls' mask' = Return tk' ->
  open_for_writing fs2 (save_target fs2 vocab_path2) = Return tt ->
  saved_return (save_vocabulary fs2 tk' vocab_path2)
  = Return [save_target fs2 vocab_path2]
  /\ file_text (saved_fs (save_vocabulary fs2 tk' vocab_path2))
       (save_target fs2 vocab_path2)
     = file_text (saved_fs (save_vocabulary fs tk vocab_path))
         (save_target fs vocab_path)
  /\ saved_log (save_vocabulary fs2 tk' vocab_path2) = []
  /\ file_text (saved_fs (save_vocabulary fs2 tk' vocab_path2))
       (save_target fs2 vocab_path2) <> None.
Proof.
  intros Hinit Hopen Hinit' Hopen2.
  destruct (constructed_vocab_clean _ _ _ _ _ _ _ _ Hinit) as [Hnd Hclean].
  destruct (reload_saved_vocab tk Hnd Hclean)
    as (Htoks & Hnd' & Hlines & _ & Hload & Htext).
  destruct (save_opened fs tk vocab_path Hopen
              (constructed_tokens_encodable _ _ _ _ _ _ _ _ Hinit))
    as (_ & Hfile & _).
  destruct (save_opened fs2 tk' vocab_path2 Hopen2
              (constructed_tokens_encodable _ _ _ _ _ _ _ _ Hinit'))
    as (Hret2 & Hfile2 & Hlog2).
  destruct (init_vocab _ _ _ _ _ _ _ _ _ Hinit' Hfile) as (Hv' & _).
  rewrite Hload in Hv'.
  assert (Hcons : consecutive_from 0 (map snd (vocab tk'))).
  { rewrite Hv'. apply vocab_entries_consecutive. }
  split; [exact Hret2|split; [|split]].
  - rewrite Hfile2, Hfile. f_equal. unfold od_items.
    rewrite (sorted_consecutive (fun kv : str * Z => snd kv) (vocab tk') 0 Hcons).
    rewrite Hv'.
    rewrite <- (map_map fst (fun tok => tok ++ [LF])).
    unfold vocab_entries. rewrite vocab_entries_from_keys.
    rewrite (line_tokens_written _ Htoks). symmetry. exact Htext.
  - apply Hlog2, ids_contiguous_consecutive.
    now rewrite (sorted_consecutive (fun kv : str * Z => snd kv) (vocab tk') 0 Hcons).
  - rewrite Hfile2. discriminate.
Qed.

Lemma resave_reproduces_witness :
  exists tk tk',
    default_init repeated_fs (lit "vocab.txt") = Return tk
    /\ default_init (saved_fs (save_vocabulary repeated_fs tk (lit "copy.txt")))
         (lit "copy.txt") = Return tk'
    /\ file_text (saved_fs (save_vocabulary bare_fs tk' (lit "again.txt")))
         (lit "again.txt")
       = Some (lit "b" ++ [LF] ++ lit "a" ++ [LF]).
Proof.
  assert (Hinit : exists tk, default_init repeated_fs (lit "vocab.txt") = Return tk)
    by (eexists; reflexivity).
  destruct Hinit as [tk Hinit]. exists tk.
  assert (Hinit' : exists tk',
             default_init (saved_fs (save_vocabulary repeated_fs tk (lit "copy.txt")))
               (lit "copy.txt") = Return tk').
  { vm_compute in Hinit. injection Hinit as <-. eexists. reflexivity. }
  destruct Hinit' as [tk' Hinit']. exists tk'.
  split; [exact Hinit|split; [exact Hinit'|]].
  etransitivity.
  - exact (proj1 (proj2 (resave_reproduces repeated_fs bare_fs (lit "vocab.txt")
                    (lit "[UNK]") (lit "[SEP]") (lit "[PAD]") (lit "[CLS]")
                    (lit "[MASK]") tk tk' (lit "copy.txt")
                    (lit "[UNK]") (lit "[SEP]") (lit "[PAD]") (lit "[CLS]")
                    (lit "[MASK]") (lit "again.txt") Hinit eq_refl Hinit' eq_refl))).
  - vm_compute in Hinit. injection Hinit as <-. reflexivity.
Defined.

(* ================================================================== *)
(** * Further properties: get_vocab                                     *)
(* ================================================================== *)

Section AssocLastDict.
Context {K V : Type} `{KeyEqLaws K}.

Lemma assoc_last_od_get (k : K) (l : list (K * V)) :
  NoDup (map fst l) -> assoc_last k l = od_get k l.
Proof.
  intros Hnd. destruct (od_get k l) as [v|] eqn:E.
  - apply assoc_last_unique; [now apply od_get_In|].
    intros v' Hin. apply (od_In_get _ _ _ Hnd) in Hin. congruence.
  - apply assoc_last_absent. now apply od_get_None.
Qed.

Lemma od_fold_grows (l : list (K * V)) (d : OrderedDict K V) :
  length d <= length (fold_left (fun d kv => od_set (fst kv) (snd kv) d) l d).
Proof.
  revert d. induction l as [|[k0 v0] r IH]; intros d; simpl; [lia|].
  specialize (IH (od_set k0 v0 d)). rewrite od_set_length in IH.
  destruct (od_get k0 d); lia.
Qed.

End AssocLastDict.

(** X16. [get_vocab] maps a token to its added id when the added-token
    dictionary (a dictionary: its keys are distinct) holds it and to its
    vocabulary id otherwise; the result has at least the vocabulary's size
    and at most that size plus the number of added tokens. *)
Theorem get_vocab_lookup (self : t) (added_tokens_encoder : OrderedDict str Z) :
  NoDup (map fst added_tokens_encoder) ->
  (forall tok,
      od_get tok (get_vocab self added_tokens_encoder)
      = match od_get tok added_tokens_encoder with
        | Some i => Some i
        | None => od_get tok (vocab self)
        end)
  /\ vocab_size self <= od_len (get_vocab self added_tokens_encoder)
  /\ od_len (get_vocab self added_tokens_encoder)
     <= vocab_size self + od_len added_tokens_encoder.
Proof.
  intros Hnd. unfold get_vocab, od_items, vocab_size, od_len. split; [|split].
  - intros tok. rewrite od_get_fold. now rewrite (assoc_last_od_get _ _ Hnd).
  - apply od_fold_grows.
  - apply od_fold_length.
Qed.

Lemma get_vocab_lookup_witness :
  od_get (lit "a")
    (get_vocab
       {| unk_token := []; sep_token := []; pad_token := []; cls_token := [];
          mask_token := []; vocab := [(lit "a", 0%Z); (lit "b", 1%Z)];
          ids_to_tokens := [(0%Z, lit "a"); (1%Z, lit "b")] |}
       [(lit "c", 2%Z); (lit "a", 7%Z)])
  = Some 7%Z.
Proof.
  assert (Hnd : NoDup (map fst [(lit "c", 2%Z); (lit "a", 7%Z)]))
    by (repeat constructor; simpl; intuition discriminate).
  rewrite (proj1 (get_vocab_lookup
                    {| unk_token := []; sep_token := []; pad_token := [];
                       cls_token := []; mask_token := [];
                       vocab := [(lit "a", 0%Z); (lit "b", 1%Z)];
                       ids_to_tokens := [(0%Z, lit "a"); (1%Z, lit "b")] |}
                    [(lit "c", 2%Z); (lit "a", 7%Z)] Hnd)).
  reflexivity.
Defined.

(* ================================================================== *)
(** * Further properties: load_vocab on its own                         *)
(* ================================================================== *)

(** X17. [load_vocab] raises exactly when the file cannot be read; the
    dictionary it returns has no token twice and no id twice, and every
    id in it is a line index of the file. *)
Theorem load_vocab_invariant (fs : filesystem) (vocab_file : str) :
  ((exists e, load_vocab fs vocab_file = Raise e) <-> file_text fs vocab_file = None)
  /\ (forall vocab text,
         load_vocab fs vocab_file = Return vocab ->
         file_text fs vocab_file = Some text ->
         NoDup (map fst vocab)
         /\ NoDup (map snd vocab)
         /\ Forall (fun i => (0 <= i < Z.of_nat (length (vocab_lines text)))%Z)
              (map snd vocab)).
Proof.
  unfold load_vocab. split.
  - destruct (read_text fs vocab_file) as [t|e] eqn:E; simpl.
    + apply read_text_Return in E as (text & Htext & _).
      split; [intros [e He]; discriminate|]. rewrite Htext. discriminate.
    + split; [intros _|intros _; now exists e].
      destruct (file_text fs vocab_file) as [text|] eqn:Htext; [|reflexivity].
      exfalso.
      assert (Hret : read_text fs vocab_file = Return (translate_newlines text))
        by (apply read_text_Return; now exists text).
      congruence.
  - intros vocab text Hret Htext.
    rewrite (proj2 (read_text_Return fs vocab_file (translate_newlines text))
               (ex_intro _ text (conj Htext eq_refl))) in Hret.
    simpl in Hret. injection Hret as <-.
    split; [apply load_vocab_lines_NoDup|split; [apply load_vocab_lines_ids_NoDup|]].
    apply Forall_forall. intros i Hin.
    apply in_map_iff in Hin as ([tok i'] & Heq & Hin). simpl in Heq. subst i'.
    apply od_In_get in Hin; [|apply load_vocab_lines_NoDup].
    apply load_vocab_lines_get in Hin as (j & -> & Hj).
    apply last_line_bound in Hj. unfold line_tokens in Hj.
    rewrite length_map in Hj. unfold vocab_lines. lia.
Qed.

Lemma load_vocab_invariant_witness :
  NoDup (map snd (load_vocab_lines
                    (vocab_lines (lit "a" ++ [LF] ++ lit "b" ++ [LF] ++ lit "a" ++ [LF])))).
Proof.
  apply (proj2 (load_vocab_invariant repeated_fs (lit "vocab.txt"))
           (load_vocab_lines
              (vocab_lines (lit "a" ++ [LF] ++ lit "b" ++ [LF] ++ lit "a" ++ [LF])))
           (lit "a" ++ [LF] ++ lit "b" ++ [LF] ++ lit "a" ++ [LF])
           eq_refl eq_refl).
Defined.
